(** * Per-key rate limiters: sliding window and minimum interval

    Shallow embedding of [task_01.py] ([SlidingWindowRateLimiter]) and
    [Task_02.py] ([ThrottlingRateLimiter]).

    Time is read by the Python code from [time.time()]; here every operation
    that reads the clock takes the value read as an explicit argument.
    Timestamps and durations are rationals ([Q]); integer configuration and
    counters are [Z]; a [dict] keyed by user id is a [gmap string _]; a
    [deque] is a [list] with its left end first.

    Each limiter is embedded twice. [SlidingWindowRateLimiter] and
    [ThrottlingRateLimiter] compute with exact arithmetic, and carry the
    properties that rounding does not touch. [SlidingWindowBinary64] and
    [ThrottlingBinary64] round the result of every float operation and
    convert an [int] operand to a float, as Python does; properties that a
    rounded bound or a failed conversion decides are stated there. The
    first is the second with the rounding that changes nothing
    ([exact_run], [exact_interval_run]). *)

From Stdlib Require Import QArith Qminmax Qround Qabs Qpower Lia Lqa Sorted
  SpecFloat.
From stdpp Require Import gmap strings list fin_maps pretty.

Open Scope Q_scope.

(** ** Python exceptions an operation could raise

    [IndexError] and [KeyError] are what an unguarded [deque[0]] or
    [dict[key]] raises; [ValueError] is what a range check of a
    constructor argument would raise. *)

Inductive py_error : Type :=
  | IndexError
  | KeyError
  | ValueError.

Inductive result (A : Type) : Type :=
  | Ok (a : A)
  | Raise (e : py_error).

Arguments Ok {A} a.
Arguments Raise {A} e.

(** [max(0.0, x)] of Python: the first argument unless the second is
    strictly larger; this is [Qmax]. *)
Definition py_max (a b : Q) : Q := Qmax a b.

(** Case analysis on a boolean comparison, leaving the order fact. *)
Ltac case_Qle x y :=
  let E := fresh "E" in
  destruct (Qle_bool x y) eqn:E;
  [ apply Qle_bool_iff in E
  | assert (y < x) by
      (apply Qnot_le_lt; intros ?%Qle_bool_iff; congruence); clear E ].


(** ** The sliding-window limiter, with exact arithmetic

    [current_time - window_size] and [oldest + window_size - current_time]
    are computed without rounding here. [SlidingWindowBinary64] below
    rounds them and converts an [int] window to a float. *)

Module SlidingWindowRateLimiter.

(** The instance attributes set by [__init__]. *)
Record limiter : Type := Limiter {
  window_size : Q;
  max_requests : Z;
  user_requests : gmap string (list Q);
  blocked_requests : Z
}.

(** [__init__]: stores its arguments, an empty dict and a zero counter.
    The body has no [raise]. *)
Definition init (window_size : Q) (max_requests : Z) : result limiter :=
  Ok (Limiter window_size max_requests ∅ 0%Z).

(** Default arguments of [__init__]: [window_size = 10], [max_requests = 1]. *)
Definition init_default : result limiter := init 10 1%Z.

Definition with_requests (s : limiter) (m : gmap string (list Q)) : limiter :=
  Limiter (window_size s) (max_requests s) m (blocked_requests s).

(** The [while] loop of [_cleanup_window]: [popleft] while the deque is
    non-empty and its first element is [<= bound]. *)
Fixpoint drop_expired (bound : Q) (dq : list Q) : list Q :=
  match dq with
  | [] => []
  | ts :: rest => if Qle_bool ts bound then drop_expired bound rest else dq
  end.

Definition _cleanup_window (s : limiter) (user_id : string) (current_time : Q)
  : limiter :=
  match user_requests s !! user_id with
  | Some dq =>
      let dq' := drop_expired (current_time - window_size s) dq in
      match dq' with
      | [] => with_requests s (delete user_id (user_requests s))
      | _ :: _ => with_requests s (<[user_id := dq']> (user_requests s))
      end
  | None => s
  end.

(** [user_id not in self.user_requests or len(...) < self.max_requests] *)
Definition has_room (s : limiter) (user_id : string) : bool :=
  match user_requests s !! user_id with
  | None => true
  | Some dq => (Z.of_nat (length dq) <? max_requests s)%Z
  end.

Definition can_send_message (s : limiter) (user_id : string) (current_time : Q)
  : bool * limiter :=
  let s1 := _cleanup_window s user_id current_time in
  (has_room s1 user_id, s1).

Definition record_message (s : limiter) (user_id : string) (current_time : Q)
  : bool * limiter :=
  let '(ok, s1) := can_send_message s user_id current_time in
  if ok then
    let dq := match user_requests s1 !! user_id with
              | Some dq => dq
              | None => []
              end in
    (true, with_requests s1 (<[user_id := dq ++ [current_time]]> (user_requests s1)))
  else
    (false, Limiter (window_size s1) (max_requests s1) (user_requests s1)
                    (blocked_requests s1 + 1)%Z).

(** [self.user_requests[user_id][0]] is reached without a guard of its own:
    a missing key or an empty deque raises. *)
Definition time_until_next_allowed (s : limiter) (user_id : string)
  (current_time : Q) : result (Q * limiter) :=
  let s1 := _cleanup_window s user_id current_time in
  if has_room s1 user_id then Ok (0, s1)
  else
    match user_requests s1 !! user_id with
    | None => Raise KeyError
    | Some [] => Raise IndexError
    | Some (oldest :: _) =>
        Ok (py_max 0 (oldest + window_size s1 - current_time), s1)
    end.

(** *** Scripted call sequences

    A call of the public interface, with the clock value it observes
    ([can_send_message] receives it from its caller, the other two read
    [time.time()]). *)
Inductive op : Type :=
  | CanSend (user_id : string) (current_time : Q)
  | Record (user_id : string) (current_time : Q)
  | TimeUntil (user_id : string) (current_time : Q).

Inductive outcome : Type :=
  | Allowed (b : bool)
  | Recorded (b : bool)
  | Wait (d : Q).

Definition op_time (o : op) : Q :=
  match o with
  | CanSend _ t | Record _ t | TimeUntil _ t => t
  end.

Definition op_user (o : op) : string :=
  match o with
  | CanSend u _ | Record u _ | TimeUntil u _ => u
  end.

Definition step (s : limiter) (o : op) : result (outcome * limiter) :=
  match o with
  | CanSend u t =>
      let '(b, s') := can_send_message s u t in Ok (Allowed b, s')
  | Record u t =>
      let '(b, s') := record_message s u t in Ok (Recorded b, s')
  | TimeUntil u t =>
      match time_until_next_allowed s u t with
      | Ok (d, s') => Ok (Wait d, s')
      | Raise e => Raise e
      end
  end.

(** Runs the calls in order; an exception aborts the script. The log pairs
    every call with what it returned. *)
Fixpoint run (s : limiter) (ops : list op) : result (list (op * outcome) * limiter) :=
  match ops with
  | [] => Ok ([], s)
  | o :: rest =>
      match step s o with
      | Raise e => Raise e
      | Ok (out, s') =>
          match run s' rest with
          | Raise e => Raise e
          | Ok (log, s'') => Ok ((o, out) :: log, s'')
          end
      end
  end.

(** The clock never goes back: each call's time is at least [clk] and at
    least the time of the call before it. *)
Fixpoint clock_monotone (clk : Q) (ops : list op) : bool :=
  match ops with
  | [] => true
  | o :: rest => Qle_bool clk (op_time o) && clock_monotone (op_time o) rest
  end.

(** The time of the last call of a script that starts at time [clk]. *)
Fixpoint final_time (clk : Q) (ops : list op) : Q :=
  match ops with
  | [] => clk
  | o :: rest => final_time (op_time o) rest
  end.

Definition nondecreasing_times (ops : list op) : bool :=
  match ops with
  | [] => true
  | o :: rest => clock_monotone (op_time o) rest
  end.

(** Times of the [record_message] calls for [user_id] that returned [True]. *)
Fixpoint accepted (user_id : string) (log : list (op * outcome)) : list Q :=
  match log with
  | [] => []
  | (Record u t, Recorded true) :: rest =>
      if decide (u = user_id) then t :: accepted user_id rest
      else accepted user_id rest
  | _ :: rest => accepted user_id rest
  end.

(** Number of [record_message] calls, for any user, that returned [False]. *)
Fixpoint rejected (log : list (op * outcome)) : nat :=
  match log with
  | [] => O
  | (Record _ _, Recorded false) :: rest => S (rejected rest)
  | _ :: rest => rejected rest
  end.

(** The trailing window of length [w] that ends at [T]: [T - w < ts <= T]. *)
Definition in_window (w T ts : Q) : bool :=
  negb (Qle_bool ts (T - w)) && Qle_bool ts T.

Definition count_in_window (w T : Q) (l : list Q) : nat :=
  length (List.filter (in_window w T) l).

(** The deque of a user, empty when the user has no entry. *)
Definition deque_of (s : limiter) (user_id : string) : list Q :=
  default [] (user_requests s !! user_id).

(** What is left of a user's deque after the loop of a cleanup at [t]. *)
Definition remaining (s : limiter) (u : string) (t : Q) : list Q :=
  drop_expired (t - window_size s) (deque_of s u).

(** What a call appends to the deque of its user. *)
Definition appended (o : op) (out : outcome) : list Q :=
  match o, out with
  | Record _ t, Recorded true => [t]
  | _, _ => []
  end.

(** Calls other than [record_message]. *)
Definition observation (o : op) : bool :=
  match o with
  | Record _ _ => false
  | CanSend _ _ | TimeUntil _ _ => true
  end.

(** [k] calls of [can_send_message] in a row at the same time. *)
Fixpoint can_send_repeatedly (k : nat) (s : limiter) (u : string) (t : Q)
  : list bool * limiter :=
  match k with
  | O => ([], s)
  | S k' =>
      let '(b, s1) := can_send_message s u t in
      let '(bs, s2) := can_send_repeatedly k' s1 u t in
      (b :: bs, s2)
  end.

(** From state [s1], reached at time [t], a [time_until_next_allowed]
    query for [u] at time [x] returns [d], after any calls other than
    [record_message] made in between at non-decreasing times. *)
Definition waits_after (s1 : limiter) (u : string) (t x d : Q) : Prop :=
  ∃ obs log s2 s3,
    forallb observation obs = true ∧
    clock_monotone t obs = true ∧ final_time t obs <= x ∧
    run s1 obs = Ok (log, s2) ∧
    time_until_next_allowed s2 u x = Ok (d, s3).

(** The ledger of user [u] at time [clk]: the accepted times [A] of [u] so
    far end with the deque of [u], what precedes it expired at or before
    [clk], and no window holds too many of them. *)
Definition ledger (u : string) (clk : Q) (s : limiter) (A : list Q) : Prop :=
  (∃ old, A = old ++ deque_of s u ∧
          Forall (λ ts, ts <= clk - window_size s) old) ∧
  ∀ T, (Z.of_nat (count_in_window (window_size s) T A)
        <= Z.max 1 (max_requests s))%Z.

(** Constructs a limiter and runs a script on it. *)
Definition script (window_size : Q) (max_requests : Z) (ops : list op)
  : result (list (op * outcome) * limiter) :=
  match init window_size max_requests with
  | Ok s => run s ops
  | Raise e => Raise e
  end.

(** The state invariant of the data model, relative to the time [clk] of
    the latest call: no entry holds an empty deque, every deque is sorted
    ascending, and no timestamp is later than [clk]. *)
Definition state_invariant (clk : Q) (s : limiter) : Prop :=
  ∀ u dq, user_requests s !! u = Some dq →
    dq ≠ [] ∧ Sorted Qle dq ∧ Forall (λ ts, ts <= clk) dq.

(** No deque holds more than [max_requests] timestamps (one, when
    [max_requests] is below one: a user without an entry is always
    admitted). *)
Definition within_capacity (s : limiter) : Prop :=
  ∀ u dq, user_requests s !! u = Some dq →
    (Z.of_nat (length dq) <= Z.max 1 (max_requests s))%Z.

End SlidingWindowRateLimiter.

(** ** The interval limiter, with exact arithmetic

    [current_time - last_message_time] and the wait time are computed
    without rounding here; [ThrottlingBinary64] below rounds them. *)

Module ThrottlingRateLimiter.

Record limiter : Type := Limiter {
  min_interval : Q;
  user_last_message_time : gmap string Q
}.

(** [__init__]: stores its argument and an empty dict; no [raise]. *)
Definition init (min_interval : Q) : result limiter :=
  Ok (Limiter min_interval ∅).

Definition init_default : result limiter := init 10.

(** [self.user_last_message_time.get(user_id, 0)] *)
Definition last_message_time (s : limiter) (user_id : string) : Q :=
  default 0 (user_last_message_time s !! user_id).

Definition can_send_message (s : limiter) (user_id : string) (current_time : Q)
  : bool * limiter :=
  (Qle_bool (min_interval s) (current_time - last_message_time s user_id), s).

Definition record_message (s : limiter) (user_id : string) (current_time : Q)
  : bool * limiter :=
  if Qle_bool (min_interval s) (current_time - last_message_time s user_id)
  then (true, Limiter (min_interval s)
                      (<[user_id := current_time]> (user_last_message_time s)))
  else (false, s).

Definition time_until_next_allowed (s : limiter) (user_id : string)
  (current_time : Q) : Q * limiter :=
  let wait_time :=
    min_interval s - (current_time - last_message_time s user_id) in
  (py_max 0 wait_time, s).

Inductive op : Type :=
  | CanSend (user_id : string) (current_time : Q)
  | Record (user_id : string) (current_time : Q)
  | TimeUntil (user_id : string) (current_time : Q).

Inductive outcome : Type :=
  | Allowed (b : bool)
  | Recorded (b : bool)
  | Wait (d : Q).

Definition step (s : limiter) (o : op) : outcome * limiter :=
  match o with
  | CanSend u t => let '(b, s') := can_send_message s u t in (Allowed b, s')
  | Record u t => let '(b, s') := record_message s u t in (Recorded b, s')
  | TimeUntil u t => let '(d, s') := time_until_next_allowed s u t in (Wait d, s')
  end.

Fixpoint run (s : limiter) (ops : list op) : list (op * outcome) * limiter :=
  match ops with
  | [] => ([], s)
  | o :: rest =>
      let '(out, s') := step s o in
      let '(log, s'') := run s' rest in
      ((o, out) :: log, s'')
  end.

(** Calls other than [record_message]. *)
Definition observation (o : op) : bool :=
  match o with
  | Record _ _ => false
  | CanSend _ _ | TimeUntil _ _ => true
  end.

(** [k] calls of [can_send_message] in a row at the same time. *)
Fixpoint can_send_repeatedly (k : nat) (s : limiter) (u : string) (t : Q)
  : list bool * limiter :=
  match k with
  | O => ([], s)
  | S k' =>
      let '(b, s1) := can_send_message s u t in
      let '(bs, s2) := can_send_repeatedly k' s1 u t in
      (b :: bs, s2)
  end.

(** From state [s1], a [time_until_next_allowed] query for [u] at time [x]
    returns [d], after any calls other than [record_message]. *)
Definition waits_after (s1 : limiter) (u : string) (x d : Q) : Prop :=
  ∃ obs log s2 s3,
    forallb observation obs = true ∧
    run s1 obs = (log, s2) ∧
    time_until_next_allowed s2 u x = (d, s3).

End ThrottlingRateLimiter.

(** ** Scripts seen from one user *)

Module SlidingWindowScripts.
Import SlidingWindowRateLimiter.

(** The calls of a script that are made for user [v], in order. *)
Definition for_user (v : string) (ops : list op) : list op :=
  List.filter (λ o, bool_decide (op_user o = v)) ops.

(** The entries of a log that belong to calls for user [v]. *)
Definition log_for_user (v : string) (log : list (op * outcome))
  : list (op * outcome) :=
  List.filter (λ e, bool_decide (op_user (fst e) = v)) log.

(** The outcome of the first [record_message] call of a log made for
    user [u], if there is one. *)
Fixpoint first_record (u : string) (log : list (op * outcome)) : option bool :=
  match log with
  | [] => None
  | (Record v _, Recorded b) :: rest =>
      if decide (v = u) then Some b else first_record u rest
  | _ :: rest => first_record u rest
  end.

(** No user is stored with an empty deque. *)
Definition no_empty_deque (s : limiter) : Prop :=
  ∀ u dq, user_requests s !! u = Some dq → dq ≠ [].

End SlidingWindowScripts.

Module ThrottlingScripts.
Import ThrottlingRateLimiter.

Definition op_user (o : op) : string :=
  match o with
  | CanSend u _ | Record u _ | TimeUntil u _ => u
  end.

Definition op_time (o : op) : Q :=
  match o with
  | CanSend _ t | Record _ t | TimeUntil _ t => t
  end.

(** The calls of a script that are made for user [v], in order. *)
Definition for_user (v : string) (ops : list op) : list op :=
  List.filter (λ o, bool_decide (op_user o = v)) ops.

(** The entries of a log that belong to calls for user [v]. *)
Definition log_for_user (v : string) (log : list (op * outcome))
  : list (op * outcome) :=
  List.filter (λ e, bool_decide (op_user (fst e) = v)) log.

(** Times of the [record_message] calls for [user_id] that returned [True]. *)
Fixpoint accepted (user_id : string) (log : list (op * outcome)) : list Q :=
  match log with
  | [] => []
  | (Record u t, Recorded true) :: rest =>
      if decide (u = user_id) then t :: accepted user_id rest
      else accepted user_id rest
  | _ :: rest => accepted user_id rest
  end.

(** Each time of [l] comes at least [gap] after the one before it, the
    first at least [gap] after [prev]. *)
Fixpoint spaced (gap prev : Q) (l : list Q) : Prop :=
  match l with
  | [] => True
  | t :: rest => gap <= t - prev ∧ spaced gap t rest
  end.

End ThrottlingScripts.

(** ** The demonstration drivers

    [test_rate_limiter] and [test_throttling_limiter] send twenty numbered
    messages in two series of ten and print one line per message. The
    sleeps and the random delays between messages only decide what
    [time.time()] returns afterwards, so a driver is modelled as a function
    of the clock: [clock k] is the value of the [k]-th call of
    [time.time()] of the run. What a line prints is kept as data: the
    message number, the user number, the result of [record_message] and
    the value of [time_until_next_allowed] (printed only for a rejected
    message). *)

Record line : Type := Line {
  message_id : nat;
  user_id : nat;
  result_ok : bool;
  wait_time : Q
}.

(** [str(user_id)] *)
Definition str (n : nat) : string := pretty n.

(** [message_id % 5 + 1] *)
Definition user_of (message_id : nat) : nat := message_id mod 5 + 1.

(** Number of printed lines that report a rejected message. *)
Definition rejected_lines (printed : list line) : nat :=
  length (List.filter (λ ln, negb (result_ok ln)) printed).

Module SlidingWindowDemo.
Import SlidingWindowRateLimiter.

(** One iteration of a [for message_id in range(...)] loop: the limiter,
    the number of clock reads so far and the lines printed so far. *)
Definition send (clock : nat → Q) (st : limiter * nat * list line)
  (message_id : nat) : result (limiter * nat * list line) :=
  let '(limiter, k, printed) := st in
  let user_id := user_of message_id in
  let '(res, l1) := record_message limiter (str user_id) (clock k) in
  match time_until_next_allowed l1 (str user_id) (clock (S k)) with
  | Ok (wait, l2) =>
      Ok (l2, S (S k), printed ++ [Line message_id user_id res wait])
  | Raise e => Raise e
  end.

Fixpoint series (clock : nat → Q) (st : limiter * nat * list line)
  (ids : list nat) : result (limiter * nat * list line) :=
  match ids with
  | [] => Ok st
  | message_id :: rest =>
      match send clock st message_id with
      | Ok st' => series clock st' rest
      | Raise e => Raise e
      end
  end.

(** The printed lines and the blocked total printed at the end. *)
Definition test_rate_limiter (clock : nat → Q) : result (list line * Z) :=
  match init 10 1 with
  | Raise e => Raise e
  | Ok limiter =>
      match series clock (limiter, O, []) (seq 1 10) with
      | Raise e => Raise e
      | Ok st1 =>
          match series clock st1 (seq 11 10) with
          | Raise e => Raise e
          | Ok (limiter', _, printed) => Ok (printed, blocked_requests limiter')
          end
      end
  end.

End SlidingWindowDemo.

Module ThrottlingDemo.
Import ThrottlingRateLimiter.

Definition send (clock : nat → Q) (st : limiter * nat * list line)
  (message_id : nat) : limiter * nat * list line :=
  let '(limiter, k, printed) := st in
  let user_id := user_of message_id in
  let '(res, l1) := record_message limiter (str user_id) (clock k) in
  let '(wait, l2) := time_until_next_allowed l1 (str user_id) (clock (S k)) in
  (l2, S (S k), printed ++ [Line message_id user_id res wait]).

Fixpoint series (clock : nat → Q) (st : limiter * nat * list line)
  (ids : list nat) : limiter * nat * list line :=
  match ids with
  | [] => st
  | message_id :: rest => series clock (send clock st message_id) rest
  end.

(** The printed lines. *)
Definition test_throttling_limiter (clock : nat → Q) : result (list line) :=
  match init 10 with
  | Raise e => Raise e
  | Ok limiter =>
      let st1 := series clock (limiter, O, []) (seq 1 10) in
      let '(_, _, printed) := series clock st1 (seq 11 10) in
      Ok printed
  end.

End ThrottlingDemo.

(** ** The limiters with floating-point arithmetic

    [time.time()] returns a binary64 float and the configuration is a
    Python [int] or [float]. A finite float is a rational number; a
    floating-point subtraction or addition returns the exact result
    rounded to a float, comparisons are exact, and an [int] operand is
    first converted to a float, which raises [OverflowError] when it is out
    of range. The definitions below follow the source with every
    arithmetic operation rounded by a function [rnd]; [round64] is the
    rounding of binary64 (to nearest, ties to even). Infinities and NaN
    are outside the model. *)

Module Binary64.

(** A Python number: an [int] of any size or a finite [float]. *)
Inductive number : Type :=
  | PyInt (z : Z)
  | PyFloat (x : Q).

Inductive exception : Type :=
  | OverflowError
  | LookupError (e : py_error).

Inductive outcome_of (A : Type) : Type :=
  | Done (a : A)
  | Throw (e : exception).

Arguments Done {A} a.
Arguments Throw {A} e.

(** The exact value of a number, as comparisons see it. *)
Definition value (x : number) : Q :=
  match x with
  | PyInt z => inject_Z z
  | PyFloat q => q
  end.

(** An [int] converts to a float unless it rounds to [2^1024] or more:
    [2^1024 - 2^970] is half-way between the largest float and [2^1024]. *)
Definition overflow_bound : Z := 2 ^ 1024 - 2 ^ 970.

(** The float operand that [float - int], [float + int] and
    [int - float] compute with. *)
Definition to_float (rnd : Q → Q) (x : number) : outcome_of Q :=
  match x with
  | PyFloat q => Done q
  | PyInt z =>
      if (Z.abs z <? overflow_bound)%Z then Done (rnd (inject_Z z))
      else Throw OverflowError
  end.

(** A rounding that keeps the order. *)
Definition monotone (rnd : Q → Q) : Prop := ∀ x y, x <= y → rnd x <= rnd y.

(** Nearest integer, ties to even. *)
Definition round_half_even (q : Q) : Z :=
  let f := Qfloor q in
  match Qcompare (q - inject_Z f) (1 # 2) with
  | Lt => f
  | Gt => (f + 1)%Z
  | Eq => if Z.even f then f else (f + 1)%Z
  end.

Definition pow2 (e : Z) : Q :=
  if (0 <=? e)%Z then inject_Z (2 ^ e) else 1 / inject_Z (2 ^ (- e)).

(** [floor (log2 a)] for a positive [a]. *)
Definition binade (a : Q) : Z :=
  let e := (Z.log2 (Qnum a) - Z.log2 (Zpos (Qden a)))%Z in
  if Qle_bool (pow2 e) a then e else (e - 1)%Z.

(** The exponent of the binade of a positive [a], at least -1022 (below
    it the subnormal numbers share one spacing). *)
Definition exponent (a : Q) : Z := Z.max (binade a) (-1022).

(** A positive number rounded to 53 significant bits. *)
Definition round_pos (a : Q) : Q :=
  inject_Z (round_half_even (a / pow2 (exponent a - 52)))
  * pow2 (exponent a - 52).

(** Rounding to binary64, to nearest with ties to even. Overflow is left
    out: every value that a clock reading and a window that converts to a
    float produce stays far below [2^1024]. *)
Definition round64 (q : Q) : Q :=
  if Qeq_bool q 0 then 0
  else
    let r := Qred (round_pos (Qabs q)) in
    if Qle_bool 0 q then r else - r.

(** The rational value of a finite float of the standard library's
    specification of IEEE 754. *)
Definition SF2Q (x : spec_float) : Q :=
  match x with
  | S754_finite s m e =>
      Qred ((if s then -1 else 1) * inject_Z (Zpos m) * pow2 e)
  | _ => 0
  end.

(** Number of timestamps of [l] in the window [(lo, hi]]. *)
Definition count_between (lo hi : Q) (l : list Q) : nat :=
  length (List.filter (λ ts, negb (Qle_bool ts lo) && Qle_bool ts hi) l).

End Binary64.

Module SlidingWindowBinary64.
Import Binary64.
Import SlidingWindowRateLimiter(op, CanSend, Record, TimeUntil, outcome,
  Allowed, Recorded, Wait, drop_expired).

Record limiter : Type := Limiter {
  window_size : number;
  max_requests : Z;
  user_requests : gmap string (list Q);
  blocked_requests : Z
}.

(** [__init__]: stores its arguments; the body has no check and no [raise]. *)
Definition init (window_size : number) (max_requests : Z) : outcome_of limiter :=
  Done (Limiter window_size max_requests ∅ 0%Z).

Definition with_requests (s : limiter) (m : gmap string (list Q)) : limiter :=
  Limiter (window_size s) (max_requests s) m (blocked_requests s).

(** The [while] loop of [_cleanup_window]. The bound
    [current_time - self.window_size] is computed at every test, and only
    when the deque is not empty. *)
Fixpoint popleft_expired (rnd : Q → Q) (window_size : number)
  (current_time : Q) (dq : list Q) : outcome_of (list Q) :=
  match dq with
  | [] => Done []
  | ts :: rest =>
      match to_float rnd window_size with
      | Throw e => Throw e
      | Done w =>
          if Qle_bool ts (rnd (current_time - w))
          then popleft_expired rnd window_size current_time rest
          else Done dq
      end
  end.

Definition _cleanup_window (rnd : Q → Q) (s : limiter) (user_id : string)
  (current_time : Q) : outcome_of limiter :=
  match user_requests s !! user_id with
  | Some dq =>
      match popleft_expired rnd (window_size s) current_time dq with
      | Throw e => Throw e
      | Done [] => Done (with_requests s (delete user_id (user_requests s)))
      | Done (ts :: rest) =>
          Done (with_requests s (<[user_id := ts :: rest]> (user_requests s)))
      end
  | None => Done s
  end.

Definition has_room (s : limiter) (user_id : string) : bool :=
  match user_requests s !! user_id with
  | None => true
  | Some dq => (Z.of_nat (length dq) <? max_requests s)%Z
  end.

Definition can_send_message (rnd : Q → Q) (s : limiter) (user_id : string)
  (current_time : Q) : outcome_of (bool * limiter) :=
  match _cleanup_window rnd s user_id current_time with
  | Throw e => Throw e
  | Done s1 => Done (has_room s1 user_id, s1)
  end.

Definition record_message (rnd : Q → Q) (s : limiter) (user_id : string)
  (current_time : Q) : outcome_of (bool * limiter) :=
  match can_send_message rnd s user_id current_time with
  | Throw e => Throw e
  | Done (true, s1) =>
      let dq := match user_requests s1 !! user_id with
                | Some dq => dq
                | None => []
                end in
      Done (true, with_requests s1
                    (<[user_id := dq ++ [current_time]]> (user_requests s1)))
  | Done (false, s1) =>
      Done (false, Limiter (window_size s1) (max_requests s1)
                     (user_requests s1) (blocked_requests s1 + 1)%Z)
  end.

(** [self.user_requests[user_id][0] + self.window_size - current_time]:
    the sum is rounded, then the difference. *)
Definition time_until_next_allowed (rnd : Q → Q) (s : limiter)
  (user_id : string) (current_time : Q) : outcome_of (Q * limiter) :=
  match _cleanup_window rnd s user_id current_time with
  | Throw e => Throw e
  | Done s1 =>
      if has_room s1 user_id then Done (0, s1)
      else
        match user_requests s1 !! user_id with
        | None => Throw (LookupError KeyError)
        | Some [] => Throw (LookupError IndexError)
        | Some (oldest :: _) =>
            match to_float rnd (window_size s1) with
            | Throw e => Throw e
            | Done w =>
                Done (py_max 0 (rnd (rnd (oldest + w) - current_time)), s1)
            end
        end
  end.

Definition step (rnd : Q → Q) (s : limiter) (o : op)
  : outcome_of (outcome * limiter) :=
  match o with
  | CanSend u t =>
      match can_send_message rnd s u t with
      | Done (b, s') => Done (Allowed b, s')
      | Throw e => Throw e
      end
  | Record u t =>
      match record_message rnd s u t with
      | Done (b, s') => Done (Recorded b, s')
      | Throw e => Throw e
      end
  | TimeUntil u t =>
      match time_until_next_allowed rnd s u t with
      | Done (d, s') => Done (Wait d, s')
      | Throw e => Throw e
      end
  end.

Fixpoint run (rnd : Q → Q) (s : limiter) (ops : list op)
  : outcome_of (list (op * outcome) * limiter) :=
  match ops with
  | [] => Done ([], s)
  | o :: rest =>
      match step rnd s o with
      | Throw e => Throw e
      | Done (out, s') =>
          match run rnd s' rest with
          | Throw e => Throw e
          | Done (log, s'') => Done ((o, out) :: log, s'')
          end
      end
  end.

(** Constructs a limiter and runs a script on it. *)
Definition script (rnd : Q → Q) (window_size : number) (max_requests : Z)
  (ops : list op) : outcome_of (list (op * outcome) * limiter) :=
  match init window_size max_requests with
  | Done s => run rnd s ops
  | Throw e => Throw e
  end.

(** [k] calls of [can_send_message] in a row at the same time. *)
Fixpoint can_send_repeatedly (rnd : Q → Q) (k : nat) (s : limiter)
  (u : string) (t : Q) : outcome_of (list bool * limiter) :=
  match k with
  | O => Done ([], s)
  | S k' =>
      match can_send_message rnd s u t with
      | Throw e => Throw e
      | Done (b, s1) =>
          match can_send_repeatedly rnd k' s1 u t with
          | Throw e => Throw e
          | Done (bs, s2) => Done (b :: bs, s2)
          end
      end
  end.

(** The deque of a user, empty when the user has no entry. *)
Definition deque_of (s : limiter) (user_id : string) : list Q :=
  default [] (user_requests s !! user_id).

(** The state a cleanup leaves when the bound it compares with is [b]. *)
Definition cleaned (b : Q) (s : limiter) (user_id : string) : limiter :=
  match user_requests s !! user_id with
  | Some dq =>
      match drop_expired b dq with
      | [] => with_requests s (delete user_id (user_requests s))
      | ts :: rest =>
          with_requests s (<[user_id := ts :: rest]> (user_requests s))
      end
  | None => s
  end.

(** A state of the embedding with exact arithmetic, its window a float. *)
Definition of_exact (s : SlidingWindowRateLimiter.limiter) : limiter :=
  Limiter (PyFloat (SlidingWindowRateLimiter.window_size s))
    (SlidingWindowRateLimiter.max_requests s)
    (SlidingWindowRateLimiter.user_requests s)
    (SlidingWindowRateLimiter.blocked_requests s).

(** The ledger of user [u] when the latest cleanup bound is [b]: the
    accepted times [A] of [u] end with the deque of [u], what precedes it
    is at or below [b], and no computed window [(rnd (T - w), T]] holds
    more than [cap] of them. *)
Definition ledger (rnd : Q → Q) (w : Q) (cap : Z) (u : string) (b : Q)
  (s : limiter) (A : list Q) : Prop :=
  (∃ old, A = old ++ deque_of s u ∧ Forall (λ ts, ts <= b) old) ∧
  ∀ T, (Z.of_nat (count_between (rnd (T - w)%Q) T A) <= cap)%Z.

End SlidingWindowBinary64.

Module ThrottlingBinary64.
Import Binary64.
Import ThrottlingRateLimiter(op, CanSend, Record, TimeUntil, outcome,
  Allowed, Recorded, Wait).

Record limiter : Type := Limiter {
  min_interval : number;
  user_last_message_time : gmap string Q
}.

Definition init (min_interval : number) : outcome_of limiter :=
  Done (Limiter min_interval ∅).

(** [self.user_last_message_time.get(user_id, 0)] *)
Definition last_message_time (s : limiter) (user_id : string) : Q :=
  default 0 (user_last_message_time s !! user_id).

(** [(current_time - last_message_time) >= self.min_interval]: the
    difference is rounded, the comparison with an [int] or a [float] is
    exact and cannot fail. *)
Definition can_send_message (rnd : Q → Q) (s : limiter) (user_id : string)
  (current_time : Q) : outcome_of (bool * limiter) :=
  Done (Qle_bool (value (min_interval s))
          (rnd (current_time - last_message_time s user_id)), s).

Definition record_message (rnd : Q → Q) (s : limiter) (user_id : string)
  (current_time : Q) : outcome_of (bool * limiter) :=
  if Qle_bool (value (min_interval s))
       (rnd (current_time - last_message_time s user_id))
  then Done (true, Limiter (min_interval s)
                     (<[user_id := current_time]> (user_last_message_time s)))
  else Done (false, s).

(** [self.min_interval - (current_time - last_message_time)] *)
Definition time_until_next_allowed (rnd : Q → Q) (s : limiter)
  (user_id : string) (current_time : Q) : outcome_of (Q * limiter) :=
  match to_float rnd (min_interval s) with
  | Throw e => Throw e
  | Done mi =>
      let wait_time :=
        rnd (mi - rnd (current_time - last_message_time s user_id)) in
      Done (py_max 0 wait_time, s)
  end.

Definition step (rnd : Q → Q) (s : limiter) (o : op)
  : outcome_of (outcome * limiter) :=
  match o with
  | CanSend u t =>
      match can_send_message rnd s u t with
      | Done (b, s') => Done (Allowed b, s')
      | Throw e => Throw e
      end
  | Record u t =>
      match record_message rnd s u t with
      | Done (b, s') => Done (Recorded b, s')
      | Throw e => Throw e
      end
  | TimeUntil u t =>
      match time_until_next_allowed rnd s u t with
      | Done (d, s') => Done (Wait d, s')
      | Throw e => Throw e
      end
  end.

Fixpoint run (rnd : Q → Q) (s : limiter) (ops : list op)
  : outcome_of (list (op * outcome) * limiter) :=
  match ops with
  | [] => Done ([], s)
  | o :: rest =>
      match step rnd s o with
      | Throw e => Throw e
      | Done (out, s') =>
          match run rnd s' rest with
          | Throw e => Throw e
          | Done (log, s'') => Done ((o, out) :: log, s'')
          end
      end
  end.

(** [k] calls of [can_send_message] in a row at the same time. *)
Fixpoint can_send_repeatedly (rnd : Q → Q) (k : nat) (s : limiter)
  (u : string) (t : Q) : outcome_of (list bool * limiter) :=
  match k with
  | O => Done ([], s)
  | S k' =>
      match can_send_message rnd s u t with
      | Throw e => Throw e
      | Done (b, s1) =>
          match can_send_repeatedly rnd k' s1 u t with
          | Throw e => Throw e
          | Done (bs, s2) => Done (b :: bs, s2)
          end
      end
  end.

(** A state of the embedding with exact arithmetic, its interval a float. *)
Definition of_exact (s : ThrottlingRateLimiter.limiter) : limiter :=
  Limiter (PyFloat (ThrottlingRateLimiter.min_interval s))
    (ThrottlingRateLimiter.user_last_message_time s).

End ThrottlingBinary64.

(** ** Float literals of the examples *)

Module Literals.
Import Binary64.

(** The Python literals [0.1], [0.4] and [0.5]. *)
Definition tenth : Q := round64 (1 # 10).
Definition four_tenths : Q := round64 (4 # 10).
Definition half : Q := round64 (5 # 10).

(** [1760000135.0749137] and [1760000135.1749136]: two readings of an
    epoch clock less than [0.1] apart. *)
Definition epoch_first : Q := round64 (17600001350749137 # 10000000).
Definition epoch_second : Q := round64 (17600001351749136 # 10000000).

(** [1e16]. *)
Definition ten_to_16 : Q := round64 (10 ^ 16).

End Literals.

(** ** Small examples: the scenarios of the specification *)

Module SW := SlidingWindowRateLimiter.
Module TH := ThrottlingRateLimiter.
Module SW64 := SlidingWindowBinary64.
Module TH64 := ThrottlingBinary64.

Module Scenarios.

Example sliding_window_10_1 :
  SW.script 10 1
    [SW.Record "1" 0; SW.Record "1" 5; SW.TimeUntil "1" 5; SW.Record "1" 11]
  = Ok ([(SW.Record "1" 0, SW.Recorded true);
         (SW.Record "1" 5, SW.Recorded false);
         (SW.TimeUntil "1" 5, SW.Wait (py_max 0 (0 + 10 - 5)));
         (SW.Record "1" 11, SW.Recorded true)],
        SW.Limiter 10 1 {[ "1" := [11] ]} 1%Z).
Proof. vm_compute. reflexivity. Qed.

Example interval_10 :
  fst (TH.run (TH.Limiter 10 ∅)
         [TH.Record "A" 0; TH.Record "A" (99 # 10); TH.Record "A" 10])
  = [(TH.Record "A" 0, TH.Recorded false);
     (TH.Record "A" (99 # 10), TH.Recorded false);
     (TH.Record "A" 10, TH.Recorded true)].
Proof. vm_compute. reflexivity. Qed.

End Scenarios.


(** ** Facts about the sliding-window limiter *)

Module SlidingWindowFacts.
Import SlidingWindowRateLimiter.

Lemma Qle_bool_false (x y : Q) : Qle_bool x y = false ↔ y < x.
Proof.
  split.
  - intros E. apply Qnot_le_lt. intros ?%Qle_bool_iff. congruence.
  - intros L. destruct (Qle_bool x y) eqn:E; [|done].
    apply Qle_bool_iff in E. lra.
Qed.

Section Deque.
Implicit Types (dq old : list Q) (b ts : Q).

Lemma drop_expired_split b dq :
  ∃ old, dq = old ++ drop_expired b dq ∧ Forall (λ ts, ts <= b) old.
Proof.
  induction dq as [|ts rest [old [Hsplit Hold]]]; simpl.
  - by exists [].
  - case_Qle ts b.
    + exists (ts :: old). split; [by rewrite Hsplit at 1 | by constructor].
    + by exists [].
Qed.

Lemma drop_expired_length b dq :
  (length (drop_expired b dq) <= length dq)%nat.
Proof.
  induction dq as [|x dq IH]; simpl; [done|].
  case_Qle x b; simpl; lia.
Qed.

(** A later cleanup subsumes an earlier one. *)
Lemma drop_expired_later b1 b2 dq :
  b1 <= b2 → drop_expired b2 (drop_expired b1 dq) = drop_expired b2 dq.
Proof.
  intros L. induction dq as [|x dq IH]; simpl; [done|].
  case_Qle x b1.
  - rewrite IH. assert (x <= b2) as ->%Qle_bool_iff by lra. done.
  - done.
Qed.

Lemma drop_expired_idem b dq :
  drop_expired b (drop_expired b dq) = drop_expired b dq.
Proof. apply drop_expired_later. lra. Qed.

Lemma Sorted_Qle_bounds x dq :
  Sorted Qle (x :: dq) → Forall (Qle x) dq.
Proof.
  intros HS. apply Sorted_StronglySorted in HS.
  - by inversion HS.
  - intros a b c. apply Qle_trans.
Qed.

Lemma drop_expired_sorted b dq :
  Sorted Qle dq → Sorted Qle (drop_expired b dq).
Proof.
  induction 1 as [|x dq HS IH Hhd]; simpl; [constructor|].
  case_Qle x b; [done | by constructor].
Qed.

(** On a sorted deque the loop removes every expired timestamp, not only
    the leading ones. *)
Lemma drop_expired_fresh b dq :
  Sorted Qle dq → Forall (λ ts, b < ts) (drop_expired b dq).
Proof.
  induction dq as [|x dq IH]; simpl; intros HS; [constructor|].
  case_Qle x b.
  - apply IH. by inversion HS.
  - constructor; [done|].
    eapply Forall_impl; [by apply Sorted_Qle_bounds|].
    simpl. intros y Hy. lra.
Qed.

Lemma Sorted_Qle_snoc dq t :
  Sorted Qle dq → Forall (λ ts, ts <= t) dq → Sorted Qle (dq ++ [t]).
Proof.
  induction 1 as [|x dq HS IH Hhd]; simpl; intros HF.
  - repeat constructor.
  - inversion HF; subst. constructor; [by apply IH|].
    destruct dq; simpl; constructor; [done|]. by inversion Hhd.
Qed.

End Deque.

(** *** [_cleanup_window] *)

Section Cleanup.
Implicit Types (s : limiter) (u v : string) (t : Q).

Lemma limiter_eq s s' :
  window_size s = window_size s' →
  max_requests s = max_requests s' →
  user_requests s = user_requests s' →
  blocked_requests s = blocked_requests s' →
  s = s'.
Proof. destruct s, s'; simpl. by intros -> -> -> ->. Qed.

Lemma cleanup_window_size s u t :
  window_size (_cleanup_window s u t) = window_size s.
Proof.
  unfold _cleanup_window. destruct (user_requests s !! u) as [dq|]; [|done].
  simpl. by destruct (drop_expired _ dq).
Qed.

Lemma cleanup_max_requests s u t :
  max_requests (_cleanup_window s u t) = max_requests s.
Proof.
  unfold _cleanup_window. destruct (user_requests s !! u) as [dq|]; [|done].
  simpl. by destruct (drop_expired _ dq).
Qed.

Lemma cleanup_blocked_requests s u t :
  blocked_requests (_cleanup_window s u t) = blocked_requests s.
Proof.
  unfold _cleanup_window. destruct (user_requests s !! u) as [dq|]; [|done].
  simpl. by destruct (drop_expired _ dq).
Qed.

Lemma cleanup_lookup_same s u t :
  user_requests (_cleanup_window s u t) !! u =
  match remaining s u t with
  | [] => None
  | dq => Some dq
  end.
Proof.
  unfold remaining, deque_of, _cleanup_window.
  destruct (user_requests s !! u) as [dq|] eqn:Hu; simpl; [|by rewrite Hu].
  destruct (drop_expired _ dq); simpl.
  - apply lookup_delete_eq.
  - apply lookup_insert_eq.
Qed.

Lemma cleanup_lookup_other s u v t :
  u ≠ v →
  user_requests (_cleanup_window s u t) !! v = user_requests s !! v.
Proof.
  intros Hne. unfold _cleanup_window.
  destruct (user_requests s !! u) as [dq|]; [|done].
  simpl. destruct (drop_expired _ dq); simpl.
  - by apply lookup_delete_ne.
  - by apply lookup_insert_ne.
Qed.

Lemma cleanup_deque_same s u t :
  deque_of (_cleanup_window s u t) u = remaining s u t.
Proof.
  unfold deque_of at 1. rewrite cleanup_lookup_same.
  by destruct (remaining s u t).
Qed.

(** The admission test after a cleanup, in terms of what remains. *)
Lemma cleanup_has_room s u t :
  has_room (_cleanup_window s u t) u =
  match remaining s u t with
  | [] => true
  | dq => (Z.of_nat (length dq) <? max_requests s)%Z
  end.
Proof.
  unfold has_room. rewrite cleanup_lookup_same, cleanup_max_requests.
  by destruct (remaining s u t).
Qed.

(** Cleaning twice at the same time, or again later, is cleaning once at
    the later time. *)
Lemma cleanup_later s u t1 t2 :
  t1 <= t2 →
  _cleanup_window (_cleanup_window s u t1) u t2 = _cleanup_window s u t2.
Proof.
  intros L.
  assert (remaining (_cleanup_window s u t1) u t2 = remaining s u t2) as Hrem.
  { unfold remaining. rewrite cleanup_deque_same, cleanup_window_size.
    unfold remaining. apply drop_expired_later. lra. }
  assert (∀ v, user_requests (_cleanup_window (_cleanup_window s u t1) u t2) !! v
               = user_requests (_cleanup_window s u t2) !! v) as Hmap.
  { intros v. destruct (decide (u = v)) as [<-|Hne].
    - by rewrite !cleanup_lookup_same, Hrem.
    - by rewrite !cleanup_lookup_other. }
  apply limiter_eq; [| |by apply map_eq|].
  - by rewrite !cleanup_window_size.
  - by rewrite !cleanup_max_requests.
  - by rewrite !cleanup_blocked_requests.
Qed.

Lemma cleanup_idem s u t :
  _cleanup_window (_cleanup_window s u t) u t = _cleanup_window s u t.
Proof. apply cleanup_later. lra. Qed.

End Cleanup.

(** *** The three operations *)

Section Operations.
Implicit Types (s : limiter) (u v : string) (t : Q).


Lemma record_message_eq s u t :
  record_message s u t =
  if has_room (_cleanup_window s u t) u then
    (true, with_requests (_cleanup_window s u t)
             (<[u := remaining s u t ++ [t]]>
                (user_requests (_cleanup_window s u t))))
  else
    (false, Limiter (window_size s) (max_requests s)
              (user_requests (_cleanup_window s u t))
              (blocked_requests s + 1)%Z).
Proof.
  unfold record_message, can_send_message.
  destruct (has_room _ u).
  - f_equal. f_equal. f_equal. rewrite <- cleanup_deque_same. done.
  - by rewrite cleanup_window_size, cleanup_max_requests,
       cleanup_blocked_requests.
Qed.

(** The head access of [time_until_next_allowed] never fails: after the
    cleanup a user that has no room has an entry, and entries are
    non-empty. *)
Lemma time_until_next_allowed_eq s u t :
  time_until_next_allowed s u t =
  Ok (if has_room (_cleanup_window s u t) u then 0
      else match remaining s u t with
           | [] => 0
           | oldest :: _ => py_max 0 (oldest + window_size s - t)
           end,
      _cleanup_window s u t).
Proof.
  unfold time_until_next_allowed.
  destruct (has_room _ u) eqn:Hroom; [done|].
  rewrite cleanup_has_room in Hroom.
  rewrite cleanup_lookup_same, cleanup_window_size.
  by destruct (remaining s u t).
Qed.

Lemma step_total s o : ∃ out s', step s o = Ok (out, s').
Proof.
  destruct o as [u t|u t|u t]; simpl.
  - by eexists _, _.
  - destruct (record_message s u t). by eexists _, _.
  - rewrite time_until_next_allowed_eq. by eexists _, _.
Qed.

Lemma step_config s o out s' :
  step s o = Ok (out, s') →
  window_size s' = window_size s ∧ max_requests s' = max_requests s.
Proof.
  destruct o as [u t|u t|u t]; simpl.
  - intros [= _ <-]. by rewrite cleanup_window_size, cleanup_max_requests.
  - rewrite record_message_eq. destruct (has_room _ u); intros [= _ <-]; simpl;
      by rewrite ?cleanup_window_size, ?cleanup_max_requests.
  - rewrite time_until_next_allowed_eq. intros [= _ <-].
    by rewrite cleanup_window_size, cleanup_max_requests.
Qed.

Lemma step_lookup_other s o out s' v :
  step s o = Ok (out, s') → op_user o ≠ v →
  user_requests s' !! v = user_requests s !! v.
Proof.
  destruct o as [u t|u t|u t]; simpl; intros Hstep Hne.
  - injection Hstep as _ <-. by apply cleanup_lookup_other.
  - rewrite record_message_eq in Hstep.
    destruct (has_room _ u); injection Hstep as _ <-; simpl.
    + rewrite lookup_insert_ne by done. by apply cleanup_lookup_other.
    + by apply cleanup_lookup_other.
  - rewrite time_until_next_allowed_eq in Hstep. injection Hstep as _ <-.
    by apply cleanup_lookup_other.
Qed.

Lemma step_lookup_same s o out s' :
  step s o = Ok (out, s') →
  user_requests s' !! op_user o =
  match remaining s (op_user o) (op_time o) ++ appended o out with
  | [] => None
  | dq => Some dq
  end.
Proof.
  destruct o as [u t|u t|u t]; simpl; intros Hstep.
  - injection Hstep as <- <-. simpl. rewrite app_nil_r.
    apply cleanup_lookup_same.
  - rewrite record_message_eq in Hstep.
    destruct (has_room _ u); injection Hstep as <- <-; simpl.
    + rewrite lookup_insert_eq. by destruct (remaining s u t).
    + rewrite app_nil_r. apply cleanup_lookup_same.
  - rewrite time_until_next_allowed_eq in Hstep. injection Hstep as <- <-.
    simpl. rewrite app_nil_r. apply cleanup_lookup_same.
Qed.

Lemma step_deque_same s o out s' :
  step s o = Ok (out, s') →
  deque_of s' (op_user o) =
  remaining s (op_user o) (op_time o) ++ appended o out.
Proof.
  intros Hstep. unfold deque_of. rewrite (step_lookup_same _ _ _ _ Hstep).
  by destruct (_ ++ _).
Qed.

Lemma step_deque_other s o out s' v :
  step s o = Ok (out, s') → op_user o ≠ v → deque_of s' v = deque_of s v.
Proof.
  intros Hstep Hne. unfold deque_of.
  by rewrite (step_lookup_other _ _ _ _ _ Hstep Hne).
Qed.

(** An accepted [record_message] found room after the cleanup. *)
Lemma step_accept_room s u t s' :
  step s (Record u t) = Ok (Recorded true, s') →
  match remaining s u t with
  | [] => True
  | dq => (Z.of_nat (length dq) < max_requests s)%Z
  end.
Proof.
  simpl. rewrite record_message_eq.
  destruct (has_room _ u) eqn:Hroom; [|by intros [=]]. intros _.
  rewrite cleanup_has_room in Hroom.
  destruct (remaining s u t); [done|]. by apply Z.ltb_lt.
Qed.


Lemma run_total s ops : ∃ log s', run s ops = Ok (log, s').
Proof.
  revert s. induction ops as [|o ops IH]; intros s; simpl.
  - by eexists _, _.
  - destruct (step_total s o) as (out & s1 & ->).
    destruct (IH s1) as (log & s2 & ->). by eexists _, _.
Qed.

End Operations.

(** *** Invariants along a script *)

Section Invariants.
Implicit Types (s : limiter) (u v : string) (t clk : Q).



Lemma init_state_invariant clk w n : state_invariant clk (Limiter w n ∅ 0%Z).
Proof. intros u dq. simpl. by rewrite lookup_empty. Qed.

Lemma init_within_capacity w n : within_capacity (Limiter w n ∅ 0%Z).
Proof. intros u dq. simpl. by rewrite lookup_empty. Qed.

Lemma deque_of_invariant clk s u :
  state_invariant clk s →
  Sorted Qle (deque_of s u) ∧ Forall (λ ts, ts <= clk) (deque_of s u).
Proof.
  intros Hinv. unfold deque_of.
  destruct (user_requests s !! u) as [dq|] eqn:Hu; simpl.
  - by destruct (Hinv _ _ Hu) as (_ & ? & ?).
  - split; constructor.
Qed.

Lemma remaining_invariant clk s u t :
  state_invariant clk s → clk <= t →
  Sorted Qle (remaining s u t) ∧
  Forall (λ ts, t - window_size s < ts ∧ ts <= t) (remaining s u t).
Proof.
  intros Hinv L. destruct (deque_of_invariant _ _ u Hinv) as [HS HF].
  unfold remaining. split; [by apply drop_expired_sorted|].
  pose proof (drop_expired_fresh (t - window_size s) _ HS) as Hfresh.
  destruct (drop_expired_split (t - window_size s) (deque_of s u))
    as (old & Hsplit & _).
  rewrite Hsplit in HF. apply Forall_app in HF as [_ HF].
  rewrite Forall_forall in *. intros ts Hts.
  specialize (Hfresh _ Hts). specialize (HF _ Hts). simpl in *. lra.
Qed.

Lemma step_state_invariant clk s o out s' :
  state_invariant clk s → clk <= op_time o → step s o = Ok (out, s') →
  state_invariant (op_time o) s'.
Proof.
  intros Hinv L Hstep v dq Hv.
  destruct (decide (op_user o = v)) as [<-|Hne].
  - rewrite (step_lookup_same _ _ _ _ Hstep) in Hv.
    destruct (remaining_invariant _ _ (op_user o) _ Hinv L) as [HS HF].
    assert (Forall (λ ts, ts <= op_time o) (remaining s (op_user o) (op_time o)))
      as HF' by (eapply Forall_impl; [exact HF | simpl; intros; lra]).
    assert (dq = remaining s (op_user o) (op_time o) ++ appended o out
            ∧ dq ≠ []) as [-> Hne].
    { destruct (_ ++ _) eqn:E; [done|]. by injection Hv as <-. }
    split; [done|].
    destruct o as [u t|u t|u t], out as [b|[]|d]; simpl in *;
      rewrite ?app_nil_r; try done.
    split; [by apply Sorted_Qle_snoc|].
    apply Forall_app. split; [done|]. repeat constructor. lra.
  - rewrite (step_lookup_other _ _ _ _ _ Hstep Hne) in Hv.
    destruct (Hinv _ _ Hv) as (? & ? & HF). repeat split; try done.
    eapply Forall_impl; [exact HF|]. simpl. intros. lra.
Qed.

Lemma step_within_capacity s o out s' :
  within_capacity s → step s o = Ok (out, s') → within_capacity s'.
Proof.
  intros Hcap Hstep v dq Hv.
  destruct (step_config _ _ _ _ Hstep) as [_ ->].
  destruct (decide (op_user o = v)) as [<-|Hne].
  - rewrite (step_lookup_same _ _ _ _ Hstep) in Hv.
    assert (dq = remaining s (op_user o) (op_time o) ++ appended o out)
      as -> by (destruct (_ ++ _) eqn:E; [done|]; by injection Hv as <-).
    assert (Z.of_nat (length (remaining s (op_user o) (op_time o)))
            <= Z.max 1 (max_requests s))%Z as Hlen.
    { pose proof (drop_expired_length (op_time o - window_size s)
                    (deque_of s (op_user o))) as Hle.
      unfold remaining. unfold deque_of in *.
      destruct (user_requests s !! op_user o) as [dq0|] eqn:Hu; simpl in *.
      - specialize (Hcap _ _ Hu). lia.
      - lia. }
    destruct o as [u t|u t|u t], out as [b|[]|d]; simpl in *;
      rewrite ?app_nil_r; try done.
    pose proof (step_accept_room _ _ _ _ Hstep) as Hroom.
    rewrite length_app. simpl.
    destruct (remaining s u t); simpl in *; lia.
  - rewrite (step_lookup_other _ _ _ _ _ Hstep Hne) in Hv. exact (Hcap _ _ Hv).
Qed.

Lemma run_invariants clk s ops log s' :
  state_invariant clk s → within_capacity s →
  clock_monotone clk ops = true → run s ops = Ok (log, s') →
  state_invariant (final_time clk ops) s' ∧ within_capacity s' ∧
  window_size s' = window_size s ∧ max_requests s' = max_requests s.
Proof.
  revert clk s log. induction ops as [|o ops IH]; intros clk s log; simpl.
  - by intros ? ? _ [= _ <-].
  - intros Hinv Hcap [L%Qle_bool_iff Hmono]%andb_prop Hrun.
    destruct (step s o) as [[out s1]|] eqn:Hstep; [|done].
    destruct (run s1 ops) as [[log1 s2]|] eqn:Hrest; [|done].
    injection Hrun as _ <-.
    destruct (step_config _ _ _ _ Hstep) as [<- <-].
    eapply IH; [| |exact Hmono|exact Hrest].
    + by eapply step_state_invariant.
    + by eapply step_within_capacity.
Qed.

End Invariants.

(** *** At most [max_requests] admissions per window *)

Section AdmissionBound.
Variable u : string.
Implicit Types (s : limiter) (t clk T : Q) (A : list Q).

Lemma accepted_cons o out log :
  accepted u ((o, out) :: log) = accepted u [(o, out)] ++ accepted u log.
Proof.
  destruct o as [v t|v t|v t], out as [b|[]|d]; simpl; try done.
  by destruct (decide (v = u)).
Qed.

Lemma accepted_single_same o out :
  op_user o = u → accepted u [(o, out)] = appended o out.
Proof.
  destruct o as [v t|v t|v t], out as [b|[]|d]; simpl; try done.
  intros ->. by rewrite decide_True.
Qed.

Lemma accepted_single_other o out :
  op_user o ≠ u → accepted u [(o, out)] = [].
Proof.
  destruct o as [v t|v t|v t], out as [b|[]|d]; simpl; try done.
  intros Hne. by rewrite decide_False.
Qed.

Lemma count_in_window_app w T A1 A2 :
  count_in_window w T (A1 ++ A2) =
  (count_in_window w T A1 + count_in_window w T A2)%nat.
Proof. unfold count_in_window. by rewrite List.filter_app, length_app. Qed.

Lemma count_in_window_le w T A : (count_in_window w T A <= length A)%nat.
Proof. apply List.filter_length_le. Qed.

Lemma count_in_window_expired w T t A :
  t <= T → Forall (λ ts, ts <= t - w) A → count_in_window w T A = O.
Proof.
  intros L. unfold count_in_window. induction 1 as [|x A Hx _ IH]; simpl; [done|].
  unfold in_window at 1.
  assert (x <= T - w) as ->%Qle_bool_iff by lra. simpl. exact IH.
Qed.

Lemma count_in_window_future w T t :
  T < t → count_in_window w T [t] = O.
Proof.
  intros L. unfold count_in_window, in_window. simpl.
  apply Qle_bool_false in L as ->. by rewrite andb_false_r.
Qed.

Lemma init_ledger clk w n : ledger u clk (Limiter w n ∅ 0%Z) [].
Proof.
  split.
  - exists []. split; [|constructor].
    unfold deque_of. simpl. by rewrite lookup_empty.
  - intros T. unfold count_in_window. simpl. lia.
Qed.

Lemma step_ledger clk s A o out s' :
  ledger u clk s A → clk <= op_time o → step s o = Ok (out, s') →
  ledger u (op_time o) s' (A ++ accepted u [(o, out)]).
Proof.
  intros [(old & HA & Hold) Hcount] L Hstep.
  destruct (step_config _ _ _ _ Hstep) as [Hw Hn]. unfold ledger.
  rewrite Hw, Hn.
  destruct (decide (op_user o = u)) as [Hu|Hne].
  - rewrite (accepted_single_same _ _ Hu). subst u.
    rewrite (step_deque_same _ _ _ _ Hstep).
    destruct (drop_expired_split (op_time o - window_size s)
                (deque_of s (op_user o))) as (old2 & Hsplit & Hold2).
    fold (remaining s (op_user o) (op_time o)) in Hsplit.
    assert (Forall (λ ts, ts <= op_time o - window_size s) (old ++ old2))
      as Hexp.
    { apply Forall_app. split; [|done].
      eapply Forall_impl; [exact Hold|]. simpl. intros. lra. }
    split.
    + exists (old ++ old2). split; [|done].
      rewrite HA, Hsplit at 1. by rewrite !app_assoc.
    + intros T.
      destruct o as [v t|v t|v t], out as [b|[]|d]; simpl in *;
        rewrite ?app_nil_r; try apply Hcount.
      rewrite count_in_window_app.
      destruct (Qlt_le_dec T t) as [Hlt|Hle].
      * rewrite (count_in_window_future _ _ _ Hlt). specialize (Hcount T). lia.
      * rewrite HA, Hsplit, app_assoc, count_in_window_app.
        rewrite (count_in_window_expired _ _ _ _ Hle Hexp).
        pose proof (count_in_window_le (window_size s) T (remaining s v t)).
        pose proof (count_in_window_le (window_size s) T [t]).
        pose proof (step_accept_room _ _ _ _ Hstep) as Hroom.
        destruct (remaining s v t); simpl in *; lia.
  - rewrite (accepted_single_other _ _ Hne), app_nil_r.
    rewrite (step_deque_other _ _ _ _ _ Hstep Hne).
    split; [|done]. exists old. split; [done|].
    eapply Forall_impl; [exact Hold|]. simpl. intros. lra.
Qed.

Lemma run_ledger clk s A ops log s' :
  ledger u clk s A → clock_monotone clk ops = true →
  run s ops = Ok (log, s') →
  ledger u (final_time clk ops) s' (A ++ accepted u log).
Proof.
  revert clk s A log. induction ops as [|o ops IH]; intros clk s A log; simpl.
  - intros HL _ [= <- <-]. simpl. by rewrite app_nil_r.
  - intros HL [L%Qle_bool_iff Hmono]%andb_prop Hrun.
    destruct (step s o) as [[out s1]|] eqn:Hstep; [|done].
    destruct (run s1 ops) as [[log1 s2]|] eqn:Hrest; [|done].
    injection Hrun as <- <-.
    rewrite accepted_cons, app_assoc.
    eapply IH; [|exact Hmono|exact Hrest]. by eapply step_ledger.
Qed.

(** With any [max_requests], also one below one: a window never holds more
    than [max 1 max_requests] admissions. *)
Lemma admissions_per_window w n ops log s T :
  nondecreasing_times ops = true → script w n ops = Ok (log, s) →
  (Z.of_nat (count_in_window w T (accepted u log)) <= Z.max 1 n)%Z.
Proof.
  unfold script, init. intros Hmono Hrun.
  destruct ops as [|o ops].
  - injection Hrun as <- <-. unfold count_in_window. simpl. lia.
  - assert (clock_monotone (op_time o) (o :: ops) = true) as Hmono'.
    { simpl. apply andb_true_intro. split; [|done]. apply Qle_bool_iff. lra. }
    destruct (run_ledger _ _ _ _ _ _ (init_ledger (op_time o) w n) Hmono' Hrun)
      as [_ Hcount].
    destruct (run_invariants _ _ _ _ _ (init_state_invariant (op_time o) w n)
                (init_within_capacity w n) Hmono' Hrun) as (_ & _ & Hw & Hn).
    rewrite Hw, Hn in Hcount. apply Hcount.
Qed.

End AdmissionBound.

(** *** Reachable states *)

Section Reachable.
Implicit Types (s : limiter) (u v : string) (t clk : Q).




End Reachable.

Lemma step_blocked_requests s o out s' :
  step s o = Ok (out, s') →
  blocked_requests s' = (blocked_requests s + Z.of_nat (rejected [(o, out)]))%Z.
Proof.
  destruct o as [u t|u t|u t]; simpl.
  - intros [= <- <-]. rewrite cleanup_blocked_requests. lia.
  - rewrite record_message_eq.
    destruct (has_room _ u); intros [= <- <-]; simpl;
      rewrite ?cleanup_blocked_requests; lia.
  - rewrite time_until_next_allowed_eq. intros [= <- <-].
    rewrite cleanup_blocked_requests. lia.
Qed.

Lemma rejected_cons o out log :
  rejected ((o, out) :: log) = (rejected [(o, out)] + rejected log)%nat.
Proof. by destruct o, out as [b|[]|d]. Qed.

Lemma run_blocked_requests s ops log s' :
  run s ops = Ok (log, s') →
  blocked_requests s' = (blocked_requests s + Z.of_nat (rejected log))%Z.
Proof.
  revert s log. induction ops as [|o ops IH]; intros s log; simpl.
  - intros [= <- <-]. simpl. lia.
  - destruct (step s o) as [[out s1]|] eqn:Hstep; [|done].
    destruct (run s1 ops) as [[log1 s2]|] eqn:Hrest; [|done].
    intros [= <- <-]. rewrite rejected_cons, (IH _ _ Hrest).
    rewrite (step_blocked_requests _ _ _ _ Hstep). lia.
Qed.

(** C5. A fresh limiter starts with a blocked counter of 0; a script run on
    it ends with the counter equal to the number of [record_message] calls
    that returned [False], whatever the users and times; and every single
    call leaves the counter where it was or one higher, so it never
    decreases. *)
Theorem C5_blocked_counter_counts_rejections :
  (∀ w n, ∃ s, init w n = Ok s ∧ blocked_requests s = 0%Z) ∧
  (∀ w n ops, ∃ log s,
      script w n ops = Ok (log, s) ∧
      blocked_requests s = Z.of_nat (rejected log)) ∧
  (∀ s o, ∃ out s',
      step s o = Ok (out, s') ∧
      (blocked_requests s <= blocked_requests s')%Z ∧
      blocked_requests s' =
        (blocked_requests s + Z.of_nat (rejected [(o, out)]))%Z).
Proof.
  split; [|split].
  - intros w n. by eexists.
  - intros w n ops. unfold script, init.
    destruct (run_total (Limiter w n ∅ 0%Z) ops) as (log & s & Hrun).
    exists log, s. split; [done|].
    by rewrite (run_blocked_requests _ _ _ _ Hrun).
  - intros s o. destruct (step_total s o) as (out & s' & Hstep).
    exists out, s'. split; [done|].
    pose proof (step_blocked_requests _ _ _ _ Hstep). lia.
Qed.







End SlidingWindowFacts.

(** ** Facts about the interval limiter *)

Module ThrottlingFacts.
Import ThrottlingRateLimiter.

Section Operations.
Implicit Types (s : limiter) (u v : string) (t : Q).

Lemma record_message_outcome s u t :
  fst (record_message s u t) = fst (can_send_message s u t).
Proof.
  unfold record_message, can_send_message. simpl. by destruct (Qle_bool _ _).
Qed.

Lemma record_message_state s u t :
  snd (record_message s u t) =
  if fst (record_message s u t)
  then Limiter (min_interval s) (<[u := t]> (user_last_message_time s))
  else s.
Proof. unfold record_message. by destruct (Qle_bool _ _). Qed.

Lemma step_dom s o :
  dom (user_last_message_time s) ⊆ dom (user_last_message_time (snd (step s o))).
Proof.
  destruct o as [u t|u t|u t]; simpl; try done.
  unfold record_message. destruct (Qle_bool _ _); simpl; [|done].
  rewrite dom_insert_L. set_solver.
Qed.

Lemma run_cons s o ops :
  run s (o :: ops) =
  ((o, fst (step s o)) :: fst (run (snd (step s o)) ops),
   snd (run (snd (step s o)) ops)).
Proof. simpl. destruct (step s o). simpl. by destruct (run _ ops). Qed.

Lemma run_dom s ops :
  dom (user_last_message_time s) ⊆ dom (user_last_message_time (snd (run s ops))).
Proof.
  revert s. induction ops as [|o ops IH]; intros s; [done|].
  rewrite run_cons. simpl. etrans; [apply (step_dom s o) | apply IH].
Qed.



End Operations.

(** C4. [can_send_message] returns [True] exactly when
    [now - last >= min_interval], where [last] is the stored time of the
    user or 0 when the user has no entry; at [now = last + min_interval]
    it returns [True]; [record_message] returns what [can_send_message]
    returns at the same time. *)
Theorem C4_can_send_iff_interval_elapsed (s : limiter) (u : string) (now : Q) :
  (fst (can_send_message s u now) = true
   ↔ now - last_message_time s u >= min_interval s) ∧
  last_message_time s u =
    match user_last_message_time s !! u with
    | Some last => last
    | None => 0
    end ∧
  fst (can_send_message s u (last_message_time s u + min_interval s)) = true ∧
  fst (record_message s u now) = fst (can_send_message s u now).
Proof.
  split; [|split; [|split]].
  - unfold can_send_message. simpl. apply Qle_bool_iff.
  - unfold last_message_time. by destruct (user_last_message_time s !! u).
  - unfold can_send_message. simpl. apply Qle_bool_iff. lra.
  - apply record_message_outcome.
Qed.

(** C10. No operation of the interval limiter removes an entry: a
    [record_message] that returns [True] stores the current time under its
    user and leaves every other entry as it is, one that returns [False]
    leaves the mapping as it is, [can_send_message] and
    [time_until_next_allowed] leave the whole state as it is, and along any
    sequence of calls the key set of the mapping only grows. *)
Theorem C10_entries_are_never_removed (s : limiter) (u : string) (now : Q)
  (ops : list op) :
  user_last_message_time (snd (record_message s u now)) =
    (if fst (record_message s u now)
     then <[u := now]> (user_last_message_time s)
     else user_last_message_time s) ∧
  snd (can_send_message s u now) = s ∧
  snd (time_until_next_allowed s u now) = s ∧
  dom (user_last_message_time s)
    ⊆ dom (user_last_message_time (snd (run s ops))).
Proof.
  split; [|split; [|split]]; try done.
  - rewrite record_message_state. by destruct (fst _).
  - apply run_dom.
Qed.

End ThrottlingFacts.

(** ** Recovery of the wait time after a rejection *)

Module RecoveryFacts.
Import SlidingWindowFacts.

Section SlidingWindow.
Import SlidingWindowRateLimiter.
Implicit Types (s : limiter) (u v : string) (t x : Q).





End SlidingWindow.

Section Throttling.
Import ThrottlingRateLimiter.
Implicit Types (s : limiter) (u v : string) (t x : Q).



End Throttling.




End RecoveryFacts.

(** ** Repeated admission checks *)

Module IdempotenceFacts.
Import SlidingWindowFacts.

Lemma sliding_can_send_repeatedly k s u t :
  SW.can_send_repeatedly k (SW._cleanup_window s u t) u t =
  (repeat (SW.has_room (SW._cleanup_window s u t) u) k,
   SW._cleanup_window s u t).
Proof.
  induction k as [|k IH]; simpl; [done|].
  by rewrite cleanup_idem, IH.
Qed.

Lemma throttling_can_send_repeatedly k s u t :
  TH.can_send_repeatedly k s u t =
  (repeat (fst (TH.can_send_message s u t)) k, s).
Proof. induction k as [|k IH]; simpl; [done|]. by rewrite IH. Qed.

(** The claim that the deque stays as it is fails: after an admission at 0
    with [window_size = 10], a [can_send_message] at 20 deletes the user's
    entry, with exact and with float arithmetic alike. *)
Lemma C6_counterexample :
  SW.script 10 1 [SW.Record "1" 0]
    = Ok ([(SW.Record "1" 0, SW.Recorded true)],
          SW.Limiter 10 1 {[ "1" := [0%Q] ]} 0) ∧
  SW.user_requests (SW.Limiter 10 1 {[ "1" := [0%Q] ]} 0) !! "1" = Some [0] ∧
  SW.user_requests
    (snd (SW.can_send_message (SW.Limiter 10 1 {[ "1" := [0%Q] ]} 0) "1" 20))
    !! "1" = None ∧
  snd (SW.can_send_message (SW.Limiter 10 1 {[ "1" := [0%Q] ]} 0) "1" 20)
    ≠ SW.Limiter 10 1 {[ "1" := [0%Q] ]} 0 ∧
  SW64.can_send_message Binary64.round64
    (SW64.Limiter (Binary64.PyInt 10) 1 {[ "1" := [0%Q] ]} 0) "1" 20
    = Binary64.Done (true, SW64.Limiter (Binary64.PyInt 10) 1 ∅ 0).
Proof.
  split; [vm_compute; reflexivity|]. split; [reflexivity|].
  split; [reflexivity|]. split; [|vm_compute; reflexivity]. intros Heq.
  apply (f_equal (λ s, SW.user_requests s !! "1")) in Heq.
  vm_compute in Heq. discriminate.
Qed.

End IdempotenceFacts.

(** ** Construction *)

Module ConstructionFacts.

(** Non-positive configurations are accepted, and with a positive [int]
    window too large for a float the second [record_message] of a user
    raises [OverflowError]. *)
Lemma C2_counterexample :
  SW.init 0 1 = Ok (SW.Limiter 0 1 ∅ 0) ∧
  SW.init (-5) 1 = Ok (SW.Limiter (-5) 1 ∅ 0) ∧
  SW.init 10 0 = Ok (SW.Limiter 10 0 ∅ 0) ∧
  SW.init 10 (-3) = Ok (SW.Limiter 10 (-3) ∅ 0) ∧
  TH.init 0 = Ok (TH.Limiter 0 ∅) ∧
  TH.init (-1) = Ok (TH.Limiter (-1) ∅) ∧
  SW64.init (Binary64.PyInt 0) 1
    = Binary64.Done (SW64.Limiter (Binary64.PyInt 0) 1 ∅ 0) ∧
  SW64.init (Binary64.PyFloat (-5)) (-3)
    = Binary64.Done (SW64.Limiter (Binary64.PyFloat (-5)) (-3) ∅ 0) ∧
  TH64.init (Binary64.PyFloat (-1))
    = Binary64.Done (TH64.Limiter (Binary64.PyFloat (-1)) ∅) ∧
  SW64.script Binary64.round64 (Binary64.PyInt (10 ^ 400)) 1
    [SW.Record "1" 0; SW.Record "1" 5]
    = Binary64.Throw Binary64.OverflowError.
Proof. repeat split. Qed.

End ConstructionFacts.

(** ** Further facts about the sliding-window limiter *)

Module SlidingWindowExtras.
Import SlidingWindowRateLimiter SlidingWindowScripts SlidingWindowFacts.

Section Isolation.
Implicit Types (s : limiter) (u v : string) (t : Q).

(** The outcome of a call and the entry it leaves for its user depend on
    the configuration and on that user's entry only. *)
Lemma step_agree sa sb o out sa' :
  window_size sa = window_size sb → max_requests sa = max_requests sb →
  user_requests sa !! op_user o = user_requests sb !! op_user o →
  step sa o = Ok (out, sa') →
  ∃ sb', step sb o = Ok (out, sb') ∧
         user_requests sa' !! op_user o = user_requests sb' !! op_user o.
Proof.
  intros Hw Hn Hu Hstep.
  assert (∀ t, remaining sa (op_user o) t = remaining sb (op_user o) t) as Hrem.
  { intros t. unfold remaining, deque_of. by rewrite Hw, Hu. }
  destruct (step_total sb o) as (out' & sb' & Hsb).
  assert (out' = out) as ->.
  { destruct o as [u t|u t|u t]; simpl in *.
    - injection Hstep as <- _. injection Hsb as <- _.
      by rewrite !cleanup_has_room, Hrem, Hn.
    - rewrite record_message_eq, cleanup_has_room in Hstep, Hsb.
      rewrite <- Hrem, <- Hn in Hsb.
      destruct (match remaining sa u t with [] => true | _ => _ end);
        injection Hstep as <- _; by injection Hsb as <- _.
    - rewrite time_until_next_allowed_eq, cleanup_has_room in Hstep, Hsb.
      rewrite <- Hrem, <- Hn, <- Hw in Hsb.
      injection Hstep as <- _. by injection Hsb as <- _. }
  exists sb'. split; [done|].
  rewrite (step_lookup_same _ _ _ _ Hstep), (step_lookup_same _ _ _ _ Hsb).
  by rewrite Hrem.
Qed.

Lemma run_isolation v sa sb ops log sa' :
  window_size sa = window_size sb → max_requests sa = max_requests sb →
  user_requests sa !! v = user_requests sb !! v →
  run sa ops = Ok (log, sa') →
  ∃ sb', run sb (for_user v ops) = Ok (log_for_user v log, sb') ∧
         user_requests sa' !! v = user_requests sb' !! v.
Proof.
  revert sa sb log. induction ops as [|o ops IH]; intros sa sb log Hw Hn Hv; simpl.
  - intros [= <- <-]. by exists sb.
  - destruct (step sa o) as [[out sa1]|] eqn:Hstep; [|done].
    destruct (run sa1 ops) as [[log1 sa2]|] eqn:Hrest; [|done].
    intros [= <- <-]. simpl.
    destruct (step_config _ _ _ _ Hstep) as [Hw1 Hn1].
    destruct (decide (op_user o = v)) as [<-|Hne].
    + rewrite bool_decide_eq_true_2 by done. simpl.
      destruct (step_agree _ _ _ _ _ Hw Hn Hv Hstep) as (sb1 & Hstepb & Hv1).
      rewrite Hstepb.
      destruct (step_config _ _ _ _ Hstepb) as [Hwb Hnb].
      destruct (IH sa1 sb1 log1) as (sb2 & -> & Hv2); try done; try congruence.
      by exists sb2.
    + rewrite bool_decide_eq_false_2 by done.
      apply (IH sa1 sb log1); try congruence.
      rewrite <- Hv. by eapply step_lookup_other.
Qed.

End Isolation.

(** X1. Key isolation: what a script returns for the calls of one user,
    and the entry it leaves for that user, are what the script restricted
    to that user's calls returns and leaves, whatever the other users do
    and whenever they do it. *)
Theorem X1_key_isolation (s : limiter) (ops : list op) (v : string) :
  ∃ log s1 s2,
    run s ops = Ok (log, s1) ∧
    run s (for_user v ops) = Ok (log_for_user v log, s2) ∧
    user_requests s1 !! v = user_requests s2 !! v.
Proof.
  destruct (run_total s ops) as (log & s1 & Hrun).
  destruct (run_isolation v s s ops log s1 eq_refl eq_refl eq_refl Hrun)
    as (s2 & Hrun2 & Hv).
  by exists log, s1, s2.
Qed.

Section Capacity.
Implicit Types (s : limiter) (u v : string) (t : Q).

Lemma step_no_empty_deque s o out s' :
  no_empty_deque s → step s o = Ok (out, s') → no_empty_deque s'.
Proof.
  intros Hne Hstep v dq Hv.
  destruct (decide (op_user o = v)) as [<-|Hother].
  - rewrite (step_lookup_same _ _ _ _ Hstep) in Hv.
    destruct (_ ++ _); [done|]. by injection Hv as <-.
  - rewrite (step_lookup_other _ _ _ _ _ Hstep Hother) in Hv.
    exact (Hne _ _ Hv).
Qed.

Lemma run_capacity s ops log s' :
  no_empty_deque s → within_capacity s → run s ops = Ok (log, s') →
  no_empty_deque s' ∧ within_capacity s' ∧
  window_size s' = window_size s ∧ max_requests s' = max_requests s.
Proof.
  revert s log. induction ops as [|o ops IH]; intros s log Hne Hcap; simpl.
  - by intros [= _ <-].
  - destruct (step s o) as [[out s1]|] eqn:Hstep; [|done].
    destruct (run s1 ops) as [[log1 s2]|] eqn:Hrest; [|done].
    intros [= _ <-].
    destruct (step_config _ _ _ _ Hstep) as [<- <-].
    apply (IH s1 log1); [|by eapply step_within_capacity|done].
    by eapply step_no_empty_deque.
Qed.

Lemma script_capacity w n ops log s :
  script w n ops = Ok (log, s) →
  no_empty_deque s ∧ within_capacity s ∧
  window_size s = w ∧ max_requests s = n.
Proof.
  unfold script, init. intros Hrun.
  apply (run_capacity (Limiter w n ∅ 0%Z) ops log s); [|apply init_within_capacity|done].
  intros u dq. simpl. by rewrite lookup_empty.
Qed.

End Capacity.

(** X2. Bounded memory: after any script on a fresh limiter, whatever the
    call times, no user's deque is stored empty and none holds more than
    [max_requests] timestamps (one, when [max_requests] is below one). *)
Theorem X2_deques_stay_within_capacity
  (w : Q) (n : Z) (ops : list op) (log : list (op * outcome)) (s : limiter)
  (u : string) (dq : list Q) :
  script w n ops = Ok (log, s) →
  user_requests s !! u = Some dq →
  dq ≠ [] ∧ (Z.of_nat (length dq) <= Z.max 1 n)%Z.
Proof.
  intros Hrun Hu.
  destruct (script_capacity _ _ _ _ _ Hrun) as (Hne & Hcap & _ & <-).
  split; [exact (Hne _ _ Hu) | exact (Hcap _ _ Hu)].
Qed.

Lemma X2_witness :
  [1; 5] ≠ [] ∧ (Z.of_nat (length [1; 5]) <= Z.max 1 2)%Z.
Proof.
  apply (X2_deques_stay_within_capacity 10 2
           [Record "a" 1; Record "a" 5; Record "a" 6; Record "a" 7; Record "a" 9]
           [(Record "a" 1, Recorded true); (Record "a" 5, Recorded true);
            (Record "a" 6, Recorded false); (Record "a" 7, Recorded false);
            (Record "a" 9, Recorded false)]
           (Limiter 10 2 {[ "a" := [1; 5] ]} 3) "a").
  - vm_compute. reflexivity.
  - reflexivity.
Defined.

Section WaitTime.
Implicit Types (s : limiter) (u v : string) (t : Q).


End WaitTime.

(** X6. Checking first changes nothing for the record that follows: a
    [record_message] made after a [can_send_message] or a
    [time_until_next_allowed] for the same user at the same or an earlier
    time returns the same outcome and leaves the same state as the
    [record_message] alone. *)
Theorem X6_check_then_record (s : limiter) (u : string) (t1 t2 : Q) :
  t1 <= t2 →
  record_message (snd (can_send_message s u t1)) u t2 = record_message s u t2 ∧
  ∃ d s1, time_until_next_allowed s u t1 = Ok (d, s1) ∧
          record_message s1 u t2 = record_message s u t2.
Proof.
  intros L.
  assert (record_message (_cleanup_window s u t1) u t2 = record_message s u t2)
    as Heq.
  { unfold record_message, can_send_message. by rewrite cleanup_later. }
  split; [done|].
  rewrite time_until_next_allowed_eq. by eexists _, _.
Qed.

Lemma X6_witness :
  record_message
    (snd (can_send_message (Limiter 10 2 {[ "a" := [1; 3] ]} 0) "a" 11)) "a" 12
  = record_message (Limiter 10 2 {[ "a" := [1; 3] ]} 0) "a" 12 ∧
  ∃ d s1,
    time_until_next_allowed (Limiter 10 2 {[ "a" := [1; 3] ]} 0) "a" 11
      = Ok (d, s1) ∧
    record_message s1 "a" 12
      = record_message (Limiter 10 2 {[ "a" := [1; 3] ]} 0) "a" 12.
Proof.
  apply X6_check_then_record. unfold Qle. simpl. lia.
Defined.

Section NoWindow.
Implicit Types (s : limiter) (u v : string) (t clk : Q).



End NoWindow.



Section Pause.
Implicit Types (s : limiter) (u v : string) (t b : Q).



Lemma run_first_record s u ops log s' :
  user_requests s !! u = None → run s ops = Ok (log, s') →
  first_record u log ≠ Some false.
Proof.
  revert s log s'. induction ops as [|o ops IH]; intros s log s' Hu; simpl.
  - by intros [= <- _].
  - destruct (step s o) as [[out s1]|] eqn:Hstep; [|done].
    destruct (run s1 ops) as [[log1 s2]|] eqn:Hrest; [|done].
    intros [= <- <-].
    assert (remaining s u (op_time o) = []) as Hrem
      by (unfold remaining, deque_of; by rewrite Hu).
    destruct o as [v t|v t|v t], out as [x|x|d]; simpl in Hstep, Hrem;
      try (by destruct (record_message s v t));
      try (by rewrite time_until_next_allowed_eq in Hstep).
    + simpl. apply (IH s1 log1 s2); [|done]. injection Hstep as _ <-.
      destruct (decide (v = u)) as [->|Hne].
      * by rewrite cleanup_lookup_same, Hrem.
      * by rewrite cleanup_lookup_other.
    + simpl. destruct (decide (v = u)) as [->|Hne].
      * rewrite record_message_eq, cleanup_has_room in Hstep.
        rewrite Hrem in Hstep. by injection Hstep as <- _.
      * apply (IH s1 log1 s2); [|done].
        rewrite <- Hu. by apply (step_lookup_other s (Record v t) (Recorded x) s1).
    + simpl. apply (IH s1 log1 s2); [|done].
      rewrite time_until_next_allowed_eq in Hstep. injection Hstep as _ <-.
      destruct (decide (v = u)) as [->|Hne].
      * by rewrite cleanup_lookup_same, Hrem.
      * by rewrite cleanup_lookup_other.
Qed.

End Pause.



(** X15. First contact is always admitted: in any script on a fresh
    limiter, whatever the configuration and the call times, the first
    [record_message] made for a user is never rejected. *)
Theorem X15_first_record_is_accepted
  (w : Q) (n : Z) (ops : list op) (u : string) :
  ∃ log s, script w n ops = Ok (log, s) ∧ first_record u log ≠ Some false.
Proof.
  unfold script, init.
  destruct (run_total (Limiter w n ∅ 0%Z) ops) as (log & s & Hrun).
  exists log, s. split; [done|].
  by apply (run_first_record (Limiter w n ∅ 0%Z) u ops log s).
Qed.

End SlidingWindowExtras.

(** ** Further facts about the interval limiter *)

Module ThrottlingExtras.
Import ThrottlingRateLimiter ThrottlingScripts ThrottlingFacts.

Section IntervalScripts.
Implicit Types (s : limiter) (u v : string) (t : Q).

Lemma step_min_interval s o : min_interval (snd (step s o)) = min_interval s.
Proof.
  destruct o as [u t|u t|u t]; simpl; try done.
  unfold record_message. by destruct (Qle_bool _ _).
Qed.

(** What one call does to the entry of user [u] and to the accepted times
    of [u]. *)
Lemma step_accepted s o u :
  (accepted u [(o, fst (step s o))] = [] ∧
   user_last_message_time (snd (step s o)) !! u = user_last_message_time s !! u)
  ∨
  (∃ t, accepted u [(o, fst (step s o))] = [t] ∧
        min_interval s <= t - last_message_time s u ∧
        user_last_message_time (snd (step s o)) !! u = Some t).
Proof.
  destruct o as [v t|v t|v t]; simpl; [by left| |by left].
  unfold record_message.
  destruct (Qle_bool _ _) eqn:E; simpl; [|by left].
  destruct (decide (v = u)) as [->|Hne].
  - right. exists t. split; [done|]. split; [by apply Qle_bool_iff|].
    apply lookup_insert_eq.
  - left. split; [done|]. by apply lookup_insert_ne.
Qed.

Lemma interval_accepted_cons u o out log :
  accepted u ((o, out) :: log) = accepted u [(o, out)] ++ accepted u log.
Proof.
  destruct o as [v t|v t|v t], out as [b|[]|d]; simpl; try done.
  by destruct (decide (v = u)).
Qed.

Lemma last_message_time_lookup s s' u :
  user_last_message_time s' !! u = user_last_message_time s !! u →
  last_message_time s' u = last_message_time s u.
Proof. unfold last_message_time. by intros ->. Qed.

Lemma run_spaced s ops u :
  spaced (min_interval s) (last_message_time s u) (accepted u (fst (run s ops))).
Proof.
  revert s. induction ops as [|o ops IH]; intros s; [done|].
  rewrite run_cons. cbn [fst snd]. rewrite interval_accepted_cons.
  specialize (IH (snd (step s o))). rewrite step_min_interval in IH.
  destruct (step_accepted s o u) as [[-> Hsame]|(t & -> & Hgap & Hnew)]; simpl.
  - by rewrite (last_message_time_lookup _ _ _ Hsame) in IH.
  - split; [done|]. unfold last_message_time in IH at 1. by rewrite Hnew in IH.
Qed.

Lemma run_latest s ops u :
  user_last_message_time (snd (run s ops)) !! u =
  match last (accepted u (fst (run s ops))) with
  | Some t => Some t
  | None => user_last_message_time s !! u
  end.
Proof.
  revert s. induction ops as [|o ops IH]; intros s; [done|].
  rewrite run_cons. cbn [fst snd]. rewrite interval_accepted_cons, IH.
  destruct (step_accepted s o u) as [[-> Hsame]|(t & -> & Hgap & Hnew)]; simpl.
  - by rewrite Hsame.
  - rewrite last_cons, Hnew. by destruct (last _).
Qed.

End IntervalScripts.

(** X10. Accepted messages of a user are at least [min_interval] apart:
    along any sequence of calls, from any state and whatever the call
    times, each accepted [record_message] of a user comes at least
    [min_interval] after the previously accepted one, and the first at
    least [min_interval] after the time stored for the user at the start
    (0 without an entry). *)
Theorem X10_accepted_messages_are_spaced
  (s : limiter) (ops : list op) (u : string) :
  spaced (min_interval s) (last_message_time s u)
    (accepted u (fst (run s ops))).
Proof. apply run_spaced. Qed.

(** X11. The mapping holds the time of the latest accepted message: after
    any sequence of calls a user's entry is the time of that user's last
    accepted [record_message] of the sequence, and the entry the user had
    at the start (or none) when none was accepted. *)
Theorem X11_entry_is_latest_accepted_time
  (s : limiter) (ops : list op) (u : string) :
  user_last_message_time (snd (run s ops)) !! u =
  match last (accepted u (fst (run s ops))) with
  | Some t => Some t
  | None => user_last_message_time s !! u
  end.
Proof. apply run_latest. Qed.

Section IntervalIsolation.
Implicit Types (s : limiter) (u v : string) (t : Q).

Lemma interval_step_agree sa sb o :
  min_interval sa = min_interval sb →
  user_last_message_time sa !! op_user o = user_last_message_time sb !! op_user o →
  fst (step sa o) = fst (step sb o) ∧
  user_last_message_time (snd (step sa o)) !! op_user o
    = user_last_message_time (snd (step sb o)) !! op_user o.
Proof.
  intros Hmi Hu.
  assert (last_message_time sa (op_user o) = last_message_time sb (op_user o))
    as Hlast by (unfold last_message_time; by rewrite Hu).
  destruct o as [u t|u t|u t]; simpl in *.
  - by rewrite Hmi, Hlast.
  - unfold record_message. rewrite Hmi, Hlast.
    destruct (Qle_bool _ _); simpl; [|done].
    by rewrite !lookup_insert_eq.
  - by rewrite Hmi, Hlast.
Qed.

Lemma interval_step_other s o v :
  op_user o ≠ v →
  user_last_message_time (snd (step s o)) !! v = user_last_message_time s !! v.
Proof.
  intros Hne. destruct o as [u t|u t|u t]; simpl in *; try done.
  unfold record_message. destruct (Qle_bool _ _); simpl; [|done].
  by apply lookup_insert_ne.
Qed.

Lemma interval_run_isolation v sa sb ops :
  min_interval sa = min_interval sb →
  user_last_message_time sa !! v = user_last_message_time sb !! v →
  fst (run sb (for_user v ops)) = log_for_user v (fst (run sa ops)) ∧
  user_last_message_time (snd (run sb (for_user v ops))) !! v
    = user_last_message_time (snd (run sa ops)) !! v.
Proof.
  revert sa sb. induction ops as [|o ops IH]; intros sa sb Hmi Hv; [done|].
  rewrite run_cons. cbn [fst snd for_user log_for_user List.filter].
  destruct (decide (op_user o = v)) as [<-|Hne].
  - rewrite bool_decide_eq_true_2 by done. rewrite run_cons. cbn [fst snd].
    destruct (interval_step_agree sa sb o Hmi Hv) as [Hout Hnext].
    destruct (IH (snd (step sa o)) (snd (step sb o))) as [Hlog Hfin];
      [by rewrite !step_min_interval|by symmetry; rewrite Hnext|].
    fold (for_user (op_user o) ops). fold (log_for_user (op_user o) (fst (run (snd (step sa o)) ops))).
    by rewrite Hlog, Hfin, Hout.
  - rewrite bool_decide_eq_false_2 by done.
    apply (IH (snd (step sa o)) sb); [by rewrite step_min_interval|].
    by rewrite interval_step_other.
Qed.

End IntervalIsolation.

(** X13. Key isolation: what a sequence of calls returns for one user, and
    the entry it leaves for that user, are what the sequence restricted to
    that user's calls returns and leaves, whatever the other users do. *)
Theorem X13_key_isolation (s : limiter) (ops : list op) (v : string) :
  fst (run s (for_user v ops)) = log_for_user v (fst (run s ops)) ∧
  user_last_message_time (snd (run s (for_user v ops))) !! v
    = user_last_message_time (snd (run s ops)) !! v.
Proof. by apply interval_run_isolation. Qed.

Section IntervalPause.
Implicit Types (s : limiter) (u v : string) (t b : Q).

Lemma step_times_bounded b s o :
  (∀ v last, user_last_message_time s !! v = Some last → last <= b) →
  op_time o <= b →
  ∀ v last, user_last_message_time (snd (step s o)) !! v = Some last → last <= b.
Proof.
  intros Hb Ho v last. destruct o as [u t|u t|u t]; simpl in *; try apply Hb.
  unfold record_message. destruct (Qle_bool _ _); simpl; [|apply Hb].
  destruct (decide (u = v)) as [->|Hne].
  - rewrite lookup_insert_eq. by intros [= <-].
  - rewrite lookup_insert_ne by done. apply Hb.
Qed.

Lemma run_times_bounded b s ops :
  (∀ v last, user_last_message_time s !! v = Some last → last <= b) →
  Forall (λ o, op_time o <= b) ops →
  ∀ v last, user_last_message_time (snd (run s ops)) !! v = Some last → last <= b.
Proof.
  revert s. induction ops as [|o ops IH]; intros s Hb Hops; [done|].
  apply Forall_cons in Hops as [Ho Hops]. rewrite run_cons. cbn [snd].
  apply IH; [|done]. by apply step_times_bounded.
Qed.

Lemma run_min_interval s ops : min_interval (snd (run s ops)) = min_interval s.
Proof.
  revert s. induction ops as [|o ops IH]; intros s; [done|].
  rewrite run_cons. cbn [snd]. by rewrite IH, step_min_interval.
Qed.

End IntervalPause.

(** X16. A pause of [min_interval] readmits everyone: after any sequence
    of calls on a fresh limiter, a [record_message] made at a time that is
    at least [min_interval] after every call of the sequence, and at least
    [min_interval] after time 0, is accepted for any user. *)
Theorem X16_pause_of_min_interval_readmits
  (mi : Q) (ops : list op) (u : string) (t : Q) :
  Forall (λ o, op_time o <= t - mi) ops → mi <= t →
  fst (record_message (snd (run (Limiter mi ∅) ops)) u t) = true.
Proof.
  intros Hops Ht.
  pose proof (run_times_bounded (t - mi) (Limiter mi ∅) ops) as Hb.
  rewrite record_message_outcome. unfold can_send_message. simpl.
  rewrite run_min_interval. simpl. apply Qle_bool_iff.
  unfold last_message_time.
  destruct (user_last_message_time (snd (run (Limiter mi ∅) ops)) !! u)
    as [last|] eqn:Hu; simpl; [|lra].
  assert (last <= t - mi); [|lra].
  apply (Hb ltac:(intros v l; simpl; by rewrite lookup_empty) Hops u last Hu).
Qed.

Lemma X16_witness :
  fst (record_message
         (snd (run (Limiter 10 ∅) [Record "A" 100; Record "B" 105])) "A" 115)
  = true.
Proof.
  apply X16_pause_of_min_interval_readmits.
  - repeat constructor; unfold Qle; simpl; lia.
  - unfold Qle. simpl. lia.
Defined.

End ThrottlingExtras.

(** ** Facts about the sliding-window demonstration *)

Module SlidingWindowDemoFacts.
Import SlidingWindowRateLimiter SlidingWindowDemo SlidingWindowFacts.

Section Driver.
Variable clock : nat → Q.
Implicit Types (l : limiter) (k : nat) (printed : list line) (ids : list nat).

Lemma record_as_step l u t :
  step l (Record u t)
  = Ok (Recorded (fst (record_message l u t)), snd (record_message l u t)).
Proof. simpl. by destruct (record_message l u t). Qed.

Lemma wait_as_step l u t :
  ∃ d, step l (TimeUntil u t) = Ok (Wait d, _cleanup_window l u t).
Proof. simpl. rewrite time_until_next_allowed_eq. by eexists. Qed.

(** One iteration is a [record_message] followed by a
    [time_until_next_allowed] for the same user, at the next two clock
    reads. *)
Lemma send_spec l k printed id :
  ∃ wait l1 l2,
    send clock (l, k, printed) id
    = Ok (l2, S (S k),
          printed ++ [Line id (user_of id)
                        (fst (record_message l (str (user_of id)) (clock k)))
                        wait]) ∧
    step l (Record (str (user_of id)) (clock k))
    = Ok (Recorded (fst (record_message l (str (user_of id)) (clock k))), l1) ∧
    step l1 (TimeUntil (str (user_of id)) (clock (S k))) = Ok (Wait wait, l2).
Proof.
  destruct (record_message l (str (user_of id)) (clock k)) as [res l1] eqn:Hrm.
  pose proof (time_until_next_allowed_eq l1 (str (user_of id)) (clock (S k)))
    as Ht.
  eexists _, l1, _. split; [|split].
  - unfold send. rewrite Hrm, Ht. reflexivity.
  - simpl. by rewrite Hrm.
  - simpl. by rewrite Ht.
Qed.

Lemma series_total ids l k printed :
  ∃ l' k' printed', series clock (l, k, printed) ids = Ok (l', k', printed').
Proof.
  revert l k printed. induction ids as [|id ids IH]; intros l k printed; cbn [series map length].
  - by eexists _, _, _.
  - destruct (send_spec l k printed id) as (wait & l1 & l2 & -> & _). apply IH.
Qed.

Lemma series_app ids1 ids2 st :
  series clock st (ids1 ++ ids2) =
  match series clock st ids1 with
  | Ok st' => series clock st' ids2
  | Raise e => Raise e
  end.
Proof.
  revert st. induction ids1 as [|id ids1 IH]; intros st; simpl; [done|].
  destruct (send clock st id); [apply IH|done].
Qed.

Lemma rejected_lines_app (p1 p2 : list line) :
  rejected_lines (p1 ++ p2) = (rejected_lines p1 + rejected_lines p2)%nat.
Proof. unfold rejected_lines. by rewrite List.filter_app, length_app. Qed.

(** What any series prints and leaves. *)
Lemma series_general ids l k printed l' k' printed' :
  series clock (l, k, printed) ids = Ok (l', k', printed') →
  ∃ new,
    printed' = printed ++ new ∧
    map message_id new = ids ∧
    Forall (λ ln, user_id ln = user_of (message_id ln)) new ∧
    blocked_requests l' = (blocked_requests l + Z.of_nat (rejected_lines new))%Z ∧
    window_size l' = window_size l ∧ max_requests l' = max_requests l ∧
    k' = (k + 2 * length ids)%nat ∧
    ∀ v, v ∉ map (λ id, str (user_of id)) ids →
         user_requests l' !! v = user_requests l !! v.
Proof.
  revert l k printed. induction ids as [|id ids IH]; intros l k printed; cbn [series map length].
  - intros [= <- <- <-]. exists []. rewrite app_nil_r.
    unfold rejected_lines. simpl.
    repeat split; try done; try lia.
  - destruct (send_spec l k printed id) as (wait & l1 & l2 & -> & Hrec & Hwait).
    intros Hseries.
    destruct (IH _ _ _ Hseries)
      as (new & -> & Hids & Huser & Hblocked & Hw & Hn & -> & Hother).
    destruct (step_config _ _ _ _ Hrec) as [Hw1 Hn1].
    destruct (step_config _ _ _ _ Hwait) as [Hw2 Hn2].
    pose proof (step_blocked_requests _ _ _ _ Hrec) as Hb1.
    pose proof (step_blocked_requests _ _ _ _ Hwait) as Hb2.
    eexists (_ :: new). rewrite <- app_assoc. split; [reflexivity|].
    simpl. split; [by rewrite Hids|]. split; [by constructor|].
    split.
    { rewrite Hblocked, Hb2, Hb1.
      change (_ :: new) with ([Line id (user_of id)
                (fst (record_message l (str (user_of id)) (clock k))) wait] ++ new).
      rewrite rejected_lines_app. unfold rejected_lines at 2. simpl.
      destruct (fst (record_message l _ _)); simpl; lia. }
    split; [congruence|]. split; [congruence|]. split; [lia|].
    intros v Hv. apply not_elem_of_cons in Hv as [Hne Hv].
    rewrite (Hother v Hv).
    rewrite (step_lookup_other _ _ _ _ v Hwait) by done.
    by rewrite (step_lookup_other _ _ _ _ v Hrec).
Qed.

(** Users served for the first time are all admitted. *)
Lemma series_first_contacts ids l k printed l' k' printed' :
  NoDup (map (λ id, str (user_of id)) ids) →
  (∀ v, v ∈ map (λ id, str (user_of id)) ids → user_requests l !! v = None) →
  series clock (l, k, printed) ids = Ok (l', k', printed') →
  ∃ new, printed' = printed ++ new ∧ length new = length ids ∧
         Forall (λ ln, result_ok ln = true) new.
Proof.
  revert l k printed. induction ids as [|id ids IH]; intros l k printed; cbn [series map length].
  - intros _ _ [= <- <- <-]. exists []. by rewrite app_nil_r.
  - intros [Hfresh Hnodup]%NoDup_cons Habsent.
    destruct (send_spec l k printed id) as (wait & l1 & l2 & -> & Hrec & Hwait).
    intros Hseries.
    assert (fst (record_message l (str (user_of id)) (clock k)) = true) as Hok.
    { rewrite record_message_eq, cleanup_has_room.
      unfold remaining, deque_of.
      rewrite (Habsent (str (user_of id))) by apply list_elem_of_here. done. }
    assert (∀ v, v ∈ map (λ id, str (user_of id)) ids →
                 user_requests l2 !! v = None) as Habsent2.
    { intros v Hv.
      assert (str (user_of id) ≠ v) as Hne by (intros <-; done).
      rewrite (step_lookup_other _ _ _ _ v Hwait) by done.
      rewrite (step_lookup_other _ _ _ _ v Hrec) by done.
      apply Habsent. by apply list_elem_of_further. }
    destruct (IH _ _ _ Hnodup Habsent2 Hseries) as (new & -> & Hlen & Hall).
    eexists (_ :: new). rewrite <- app_assoc. split; [reflexivity|].
    simpl. split; [by rewrite Hlen|]. by constructor.
Qed.

Section Timing.
Hypothesis clock_mono : ∀ i, clock i <= clock (S i).

Lemma clock_le i j : (i ≤ j)%nat → clock i <= clock j.
Proof.
  induction 1 as [|j _ IH]; [lra|]. pose proof (clock_mono j). lra.
Qed.



End Timing.

End Driver.

(** X17. The sliding-window demonstration, for any clock, runs to its end
    and prints twenty lines, for messages 1 to 20 in order, each for user
    [message_id % 5 + 1]; the first five messages, one per user, are
    accepted; the total printed at the end is the number of lines that
    report a rejection. *)
Theorem X17_demo_prints_twenty_lines (clock : nat → Q) :
  ∃ printed blocked,
    test_rate_limiter clock = Ok (printed, blocked) ∧
    map message_id printed = seq 1 20 ∧
    Forall (λ ln, user_id ln = (message_id ln mod 5 + 1)%nat) printed ∧
    Forall (λ ln, result_ok ln = true) (take 5 printed) ∧
    blocked = Z.of_nat (rejected_lines printed).
Proof.
  unfold test_rate_limiter, init.
  change (seq 1 10) with (seq 1 5 ++ seq 6 5). rewrite series_app.
  destruct (series_total clock (seq 1 5) (Limiter 10 1 ∅ 0) O [])
    as (la & ka & pa & Ha). rewrite Ha.
  destruct (series_total clock (seq 6 5) la ka pa) as (lb & kb & pb & Hb).
  rewrite Hb.
  destruct (series_total clock (seq 11 10) lb kb pb) as (lc & kc & pc & Hc).
  rewrite Hc.
  exists pc, (blocked_requests lc). split; [done|].
  destruct (series_general _ _ _ _ _ _ _ _ Ha)
    as (na & -> & Hia & Hua & Hba & _).
  destruct (series_general _ _ _ _ _ _ _ _ Hb)
    as (nb & -> & Hib & Hub & Hbb & _).
  destruct (series_general _ _ _ _ _ _ _ _ Hc)
    as (nc & -> & Hic & Huc & Hbc & _).
  assert (NoDup (map (λ id, str (user_of id)) (seq 1 5))) as Hnodup
    by (apply (bool_decide_unpack _); vm_compute; exact I).
  assert (∀ v, v ∈ map (λ id, str (user_of id)) (seq 1 5) →
               user_requests (Limiter 10 1 ∅ 0) !! v = None) as Hfresh
    by (intros v _; apply lookup_empty).
  destruct (series_first_contacts clock (seq 1 5) _ _ _ _ _ _ Hnodup Hfresh Ha)
    as (na' & Hna & Hlen & Hall).
  apply app_inv_head in Hna as <-. simpl in *.
  split; [by rewrite !map_app, Hia, Hib, Hic|].
  split; [by rewrite !Forall_app|].
  split.
  - rewrite <- app_assoc, take_app_length' by done. done.
  - rewrite Hbc, Hbb, Hba, !rejected_lines_app. simpl. lia.
Qed.



End SlidingWindowDemoFacts.

(** ** Facts about the interval demonstration *)

Module ThrottlingDemoFacts.
Import ThrottlingRateLimiter ThrottlingDemo.

Section IntervalDriver.
Variable clock : nat → Q.
Implicit Types (l : limiter) (k : nat) (printed : list line) (ids : list nat).

Lemma send_eq l k printed id :
  send clock (l, k, printed) id =
  (snd (record_message l (str (user_of id)) (clock k)), S (S k),
   printed ++ [Line id (user_of id)
                 (fst (record_message l (str (user_of id)) (clock k)))
                 (fst (time_until_next_allowed
                         (snd (record_message l (str (user_of id)) (clock k)))
                         (str (user_of id)) (clock (S k))))]).
Proof.
  unfold send. by destruct (record_message l (str (user_of id)) (clock k)).
Qed.

Lemma interval_series_app ids1 ids2 st :
  series clock st (ids1 ++ ids2) = series clock (series clock st ids1) ids2.
Proof. revert st. induction ids1 as [|id ids1 IH]; intros st; simpl; [done|apply IH]. Qed.

Lemma record_other l u t v :
  u ≠ v →
  user_last_message_time (snd (record_message l u t)) !! v
  = user_last_message_time l !! v.
Proof.
  intros Hne. unfold record_message. destruct (Qle_bool _ _); simpl; [|done].
  by apply lookup_insert_ne.
Qed.

Lemma record_min_interval l u t :
  min_interval (snd (record_message l u t)) = min_interval l.
Proof. unfold record_message. by destruct (Qle_bool _ _). Qed.

(** What any series prints and leaves. *)
Lemma interval_series_general ids l k printed l' k' printed' :
  series clock (l, k, printed) ids = (l', k', printed') →
  ∃ new,
    printed' = printed ++ new ∧
    map message_id new = ids ∧
    Forall (λ ln, user_id ln = user_of (message_id ln)) new ∧
    min_interval l' = min_interval l ∧
    k' = (k + 2 * length ids)%nat ∧
    ∀ v, v ∉ map (λ id, str (user_of id)) ids →
         user_last_message_time l' !! v = user_last_message_time l !! v.
Proof.
  revert l k printed.
  induction ids as [|id ids IH]; intros l k printed; cbn [series map length].
  - intros [= <- <- <-]. exists []. rewrite app_nil_r.
    repeat split; try done; lia.
  - rewrite send_eq. intros Hseries.
    destruct (IH _ _ _ Hseries) as (new & -> & Hids & Huser & Hmi & -> & Hother).
    eexists (_ :: new). rewrite <- app_assoc. split; [reflexivity|].
    simpl. split; [by rewrite Hids|]. split; [by constructor|].
    split; [by rewrite Hmi, record_min_interval|]. split; [lia|].
    intros v Hv. apply not_elem_of_cons in Hv as [Hne Hv].
    rewrite (Hother v Hv). by apply record_other.
Qed.

(** Users whose stored time is at least [min_interval] back are all
    admitted. *)
Lemma interval_series_all_accepted b ids l k printed l' k' printed' :
  NoDup (map (λ id, str (user_of id)) ids) →
  (∀ v, v ∈ map (λ id, str (user_of id)) ids → last_message_time l v <= b) →
  (∀ j, (k ≤ j)%nat → b + min_interval l <= clock j) →
  series clock (l, k, printed) ids = (l', k', printed') →
  (∃ new, printed' = printed ++ new ∧ length new = length ids ∧
          Forall (λ ln, result_ok ln = true) new) ∧
  ∀ v, v ∈ map (λ id, str (user_of id)) ids →
       ∃ j, (k ≤ j)%nat ∧ user_last_message_time l' !! v = Some (clock j).
Proof.
  revert l k printed.
  induction ids as [|id ids IH]; intros l k printed; cbn [series map length].
  - intros _ _ _ [= <- <- <-]. split.
    + exists []. by rewrite app_nil_r.
    + intros v Hv. by apply elem_of_nil in Hv.
  - intros [Hfresh Hnodup]%NoDup_cons Hlast Hlate. rewrite send_eq.
    intros Hseries.
    assert (Qle_bool (min_interval l)
              (clock k - last_message_time l (str (user_of id))) = true) as Hok.
    { apply Qle_bool_iff.
      pose proof (Hlast (str (user_of id)) ltac:(apply list_elem_of_here)).
      pose proof (Hlate k ltac:(lia)). lra. }
    assert (record_message l (str (user_of id)) (clock k)
            = (true, Limiter (min_interval l)
                       (<[str (user_of id) := clock k]> (user_last_message_time l))))
      as Hrec by (unfold record_message; by rewrite Hok).
    rewrite Hrec in Hseries. cbn [fst snd] in Hseries.
    set (l2 := Limiter (min_interval l)
                 (<[str (user_of id) := clock k]> (user_last_message_time l)))
      in Hseries.
    assert (∀ v, v ∈ map (λ id, str (user_of id)) ids →
                 last_message_time l2 v <= b) as Hlast2.
    { intros v Hv. unfold last_message_time, l2. simpl.
      rewrite lookup_insert_ne by (intros <-; done).
      apply Hlast. by apply list_elem_of_further. }
    assert (∀ j, (S (S k) ≤ j)%nat → b + min_interval l2 <= clock j) as Hlate2.
    { intros j Hj. simpl. apply Hlate. lia. }
    destruct (IH _ _ _ Hnodup Hlast2 Hlate2 Hseries)
      as [(new & -> & Hlen & Hall) Hst].
    split.
    + eexists (_ :: new). rewrite <- app_assoc. split; [reflexivity|].
      simpl. split; [by rewrite Hlen|]. by constructor.
    + intros v Hv. apply elem_of_cons in Hv as [->|Hv].
      * exists k. split; [lia|].
        destruct (interval_series_general _ _ _ _ _ _ _ Hseries)
          as (_ & _ & _ & _ & _ & _ & Hother).
        rewrite (Hother _ Hfresh). unfold l2. simpl. apply lookup_insert_eq.
      * destruct (Hst v Hv) as (j & Hj & Hvj). exists j. split; [lia|done].
Qed.

(** Users whose stored time is less than [min_interval] back are all
    rejected. *)
Lemma interval_series_all_rejected b ids l k printed l' k' printed' :
  NoDup (map (λ id, str (user_of id)) ids) →
  (∀ v, v ∈ map (λ id, str (user_of id)) ids →
        ∃ t0, user_last_message_time l !! v = Some t0 ∧ b < t0 + min_interval l) →
  (∀ j, (j + 1 < k + 2 * length ids)%nat → clock j <= b) →
  series clock (l, k, printed) ids = (l', k', printed') →
  ∃ new, printed' = printed ++ new ∧ length new = length ids ∧
         Forall (λ ln, result_ok ln = false) new.
Proof.
  revert l k printed.
  induction ids as [|id ids IH]; intros l k printed; cbn [series map length].
  - intros _ _ _ [= <- <- <-]. exists []. by rewrite app_nil_r.
  - intros [Hfresh Hnodup]%NoDup_cons Hstored Hbound. rewrite send_eq.
    intros Hseries.
    assert (Qle_bool (min_interval l)
              (clock k - last_message_time l (str (user_of id))) = false) as Hno.
    { apply SlidingWindowFacts.Qle_bool_false.
      destruct (Hstored (str (user_of id)) ltac:(apply list_elem_of_here))
        as (t0 & Ht0 & Hlt).
      unfold last_message_time. rewrite Ht0. simpl.
      pose proof (Hbound k ltac:(lia)). lra. }
    assert (record_message l (str (user_of id)) (clock k) = (false, l)) as Hrec
      by (unfold record_message; by rewrite Hno).
    rewrite Hrec in Hseries. cbn [fst snd] in Hseries.
    assert (∀ v, v ∈ map (λ id, str (user_of id)) ids →
                 ∃ t0, user_last_message_time l !! v = Some t0 ∧
                       b < t0 + min_interval l) as Hstored2.
    { intros v Hv. apply Hstored. by apply list_elem_of_further. }
    assert (∀ j, (j + 1 < S (S k) + 2 * length ids)%nat → clock j <= b)
      as Hbound2.
    { intros j Hj. apply Hbound. lia. }
    destruct (IH _ _ _ Hnodup Hstored2 Hbound2 Hseries)
      as (new & -> & Hlen & Hall).
    eexists (_ :: new). rewrite <- app_assoc. split; [reflexivity|].
    simpl. split; [by rewrite Hlen|]. by constructor.
Qed.

(** No stored time is later than the clock reads made so far. *)
Lemma interval_series_times_bounded b ids l k printed l' k' printed' :
  (∀ v last, user_last_message_time l !! v = Some last → last <= b) →
  (∀ j, (j < k + 2 * length ids)%nat → clock j <= b) →
  series clock (l, k, printed) ids = (l', k', printed') →
  ∀ v last, user_last_message_time l' !! v = Some last → last <= b.
Proof.
  revert l k printed.
  induction ids as [|id ids IH]; intros l k printed; cbn [series map length].
  - by intros Hb _ [= <- _ _].
  - intros Hb Hread. rewrite send_eq. intros Hseries.
    refine (IH _ _ _ _ _ Hseries).
    + intros v last. unfold record_message.
      destruct (Qle_bool _ _); simpl; [|apply Hb].
      destruct (decide (str (user_of id) = v)) as [->|Hne].
      * rewrite lookup_insert_eq. intros [= <-]. apply Hread. lia.
      * rewrite lookup_insert_ne by done. apply Hb.
    + intros j Hj. apply Hread. lia.
Qed.

End IntervalDriver.

(** X19. When the clock never goes back, starts at 10 or later (seconds
    since the epoch) and the pause between the two series lasts at least
    ten seconds, the interval demonstration prints twenty lines for
    messages 1 to 20, each for user [message_id % 5 + 1], and accepts the
    first message of each of the five users in both series: messages 1 to
    5 and messages 11 to 15. *)
Theorem X19_demo_accepts_after_pause (clock : nat → Q) :
  (∀ i, clock i <= clock (S i)) → 10 <= clock O →
  clock 19%nat + 10 <= clock 20%nat →
  ∃ printed,
    test_throttling_limiter clock = Ok printed ∧
    map message_id printed = seq 1 20 ∧
    Forall (λ ln, user_id ln = (message_id ln mod 5 + 1)%nat) printed ∧
    Forall (λ ln, result_ok ln = true) (take 5 printed) ∧
    Forall (λ ln, result_ok ln = true) (take 5 (drop 10 printed)).
Proof.
  intros Hmono Hepoch Hpause.
  pose proof (SlidingWindowDemoFacts.clock_le clock Hmono) as Hle.
  unfold test_throttling_limiter, init.
  change (seq 1 10) with (seq 1 5 ++ seq 6 5).
  change (seq 11 10) with (seq 11 5 ++ seq 16 5). rewrite !interval_series_app.
  destruct (series clock (Limiter 10 ∅, O, []) (seq 1 5)) as [[la ka] pa] eqn:Ha.
  destruct (series clock (la, ka, pa) (seq 6 5)) as [[lb kb] pb] eqn:Hb.
  destruct (series clock (lb, kb, pb) (seq 11 5)) as [[lc kc] pc] eqn:Hc.
  destruct (series clock (lc, kc, pc) (seq 16 5)) as [[ld kd] pd] eqn:Hd.
  exists pd. split; [done|].
  assert (NoDup (map (λ id, str (user_of id)) (seq 1 5))) as Hnodup
    by (apply (bool_decide_unpack _); vm_compute; exact I).
  (* the first series *)
  assert (∀ v, v ∈ map (λ id, str (user_of id)) (seq 1 5) →
               last_message_time (Limiter 10 ∅) v <= 0) as Hzero.
  { intros v _. unfold last_message_time. simpl. rewrite lookup_empty. simpl. lra. }
  assert (∀ j, (0 ≤ j)%nat → 0 + min_interval (Limiter 10 ∅) <= clock j) as Hlate.
  { intros j Hj. pose proof (Hle O j Hj). simpl. lra. }
  destruct (interval_series_all_accepted clock 0 (seq 1 5) _ _ _ _ _ _ Hnodup Hzero Hlate Ha)
    as [(na & Hpa & Hlena & Halla) _].
  rewrite app_nil_l in Hpa. subst pa.
  destruct (interval_series_general _ _ _ _ _ _ _ _ Ha)
    as (na' & Hna' & Hia & Hua & Hmia & -> & _).
  rewrite app_nil_l in Hna'. subst na'.
  pose proof (interval_series_times_bounded clock (clock 19%nat) (seq 1 5)
                (Limiter 10 ∅) O [] la _ _
                ltac:(intros v last; simpl; by rewrite lookup_empty)
                ltac:(intros j Hj; apply Hle; simpl in Hj; lia) Ha) as Hba.
  assert (∀ j, (j < 0 + 2 * length (seq 1 5) + 2 * length (seq 6 5))%nat →
               clock j <= clock 19%nat) as Hreads
    by (intros j Hj; apply Hle; simpl in Hj; lia).
  pose proof (interval_series_times_bounded clock (clock 19%nat) (seq 6 5) la _ _ lb _ _
                Hba Hreads Hb) as Hbb.
  destruct (interval_series_general _ _ _ _ _ _ _ _ Hb)
    as (nb & -> & Hib & Hub & Hmib & -> & _).
  (* the second series, after the pause *)
  assert (∀ v, v ∈ map (λ id, str (user_of id)) (seq 11 5) →
               last_message_time lb v <= clock 19%nat) as Hold.
  { intros v _. unfold last_message_time.
    destruct (user_last_message_time lb !! v) as [last|] eqn:Hv; simpl.
    - exact (Hbb _ _ Hv).
    - pose proof (Hle O 19%nat ltac:(lia)). lra. }
  assert (∀ j, (0 + 2 * length (seq 1 5) + 2 * length (seq 6 5) ≤ j)%nat →
               clock 19%nat + min_interval lb <= clock j) as Hlate2.
  { intros j Hj. simpl in Hj. pose proof (Hle 20%nat j Hj).
    rewrite Hmib, Hmia. simpl. lra. }
  destruct (interval_series_all_accepted clock (clock 19%nat) (seq 11 5) _ _ _ _ _ _
              Hnodup Hold Hlate2 Hc) as [(nc & -> & Hlenc & Hallc) _].
  destruct (interval_series_general _ _ _ _ _ _ _ _ Hc)
    as (nc' & Hnc' & Hic & Huc & _).
  apply app_inv_head in Hnc'. subst nc'.
  destruct (interval_series_general _ _ _ _ _ _ _ _ Hd) as (nd & -> & Hid & Hud & _).
  assert (length (na ++ nb) = 10%nat) as Hlen10.
  { rewrite length_app, <- (length_map message_id na),
      <- (length_map message_id nb), Hia, Hib. done. }
  change (length (seq 1 5)) with 5%nat in Hlena.
  change (length (seq 11 5)) with 5%nat in Hlenc.
  split; [by rewrite !map_app, Hia, Hib, Hic, Hid|].
  split; [by rewrite !Forall_app|].
  split.
  - rewrite <- !app_assoc, take_app_length' by done. done.
  - rewrite <- (app_assoc (na ++ nb)), drop_app_length' by done.
    by rewrite take_app_length' by done.
Qed.

Lemma X19_witness :
  ∃ printed,
    test_throttling_limiter
      (λ k, if (k <? 20)%nat then inject_Z (Z.of_nat k + 100)
            else inject_Z (Z.of_nat k + 200)) = Ok printed ∧
    map message_id printed = seq 1 20 ∧
    Forall (λ ln, user_id ln = (message_id ln mod 5 + 1)%nat) printed ∧
    Forall (λ ln, result_ok ln = true) (take 5 printed) ∧
    Forall (λ ln, result_ok ln = true) (take 5 (drop 10 printed)).
Proof.
  apply X19_demo_accepts_after_pause.
  - intros i. destruct (Nat.ltb_spec i 20), (Nat.ltb_spec (S i) 20);
      unfold Qle, inject_Z; simpl; lia.
  - unfold Qle. simpl. lia.
  - unfold Qle. simpl. lia.
Defined.

(** X20. When the clock never goes back, starts at 10 or later and the ten
    messages of the first series are sent within less than ten seconds,
    the first series of the interval demonstration accepts the first
    message of each of the five users and rejects the second one. *)
Theorem X20_demo_first_series (clock : nat → Q) :
  (∀ i, clock i <= clock (S i)) → 10 <= clock O →
  clock 18%nat < clock O + 10 →
  ∃ printed,
    test_throttling_limiter clock = Ok printed ∧
    Forall (λ ln, result_ok ln = true) (take 5 printed) ∧
    Forall (λ ln, result_ok ln = false) (take 5 (drop 5 printed)).
Proof.
  intros Hmono Hepoch Hspan.
  pose proof (SlidingWindowDemoFacts.clock_le clock Hmono) as Hle.
  unfold test_throttling_limiter, init.
  change (seq 1 10) with (seq 1 5 ++ seq 6 5). rewrite interval_series_app.
  destruct (series clock (Limiter 10 ∅, O, []) (seq 1 5)) as [[la ka] pa] eqn:Ha.
  destruct (series clock (la, ka, pa) (seq 6 5)) as [[lb kb] pb] eqn:Hb.
  destruct (series clock (lb, kb, pb) (seq 11 10)) as [[lc kc] pc] eqn:Hc.
  exists pc. split; [done|].
  assert (NoDup (map (λ id, str (user_of id)) (seq 1 5))) as Hnodup
    by (apply (bool_decide_unpack _); vm_compute; exact I).
  assert (∀ v, v ∈ map (λ id, str (user_of id)) (seq 1 5) →
               last_message_time (Limiter 10 ∅) v <= 0) as Hzero.
  { intros v _. unfold last_message_time. simpl. rewrite lookup_empty. simpl. lra. }
  assert (∀ j, (0 ≤ j)%nat → 0 + min_interval (Limiter 10 ∅) <= clock j) as Hlate.
  { intros j Hj. pose proof (Hle O j Hj). simpl. lra. }
  destruct (interval_series_all_accepted clock 0 (seq 1 5) _ _ _ _ _ _ Hnodup Hzero Hlate Ha)
    as [(na & -> & Hlena & Halla) Hstored].
  destruct (interval_series_general _ _ _ _ _ _ _ _ Ha) as (_ & _ & _ & _ & Hmia & -> & _).
  destruct (interval_series_general _ _ _ _ _ _ _ _ Hc) as (nc & -> & _).
  assert (∀ v, v ∈ map (λ id, str (user_of id)) (seq 6 5) →
               ∃ t0, user_last_message_time la !! v = Some t0 ∧
                     clock 18%nat < t0 + min_interval la) as Hrecent.
  { intros v Hv. destruct (Hstored v Hv) as (j & Hj & Hvj).
    exists (clock j). split; [done|]. rewrite Hmia. simpl.
    pose proof (Hle O j Hj). lra. }
  assert (∀ j, (j + 1 < (0 + 2 * length (seq 1 5)) + 2 * length (seq 6 5))%nat →
               clock j <= clock 18%nat) as Hbound.
  { intros j Hj. apply Hle. simpl in Hj. lia. }
  destruct (interval_series_all_rejected clock (clock 18%nat) (seq 6 5) _ _ _ _ _ _
              Hnodup Hrecent Hbound Hb) as (nb & -> & Hlenb & Hallb).
  change (length (seq 1 5)) with 5%nat in Hlena.
  change (length (seq 6 5)) with 5%nat in Hlenb.
  rewrite !app_nil_l. split.
  - rewrite <- !app_assoc, take_app_length' by done. done.
  - rewrite <- !app_assoc, drop_app_length' by done.
    by rewrite take_app_length' by done.
Qed.

Lemma X20_witness :
  ∃ printed,
    test_throttling_limiter (λ k, inject_Z (Z.of_nat k + 100) / 2) = Ok printed ∧
    Forall (λ ln, result_ok ln = true) (take 5 printed) ∧
    Forall (λ ln, result_ok ln = false) (take 5 (drop 5 printed)).
Proof.
  apply X20_demo_first_series.
  - intros i. unfold Qle, Qdiv, Qmult, Qinv, inject_Z. simpl. lia.
  - unfold Qle. simpl. lia.
  - unfold Qlt. simpl. lia.
Defined.

End ThrottlingDemoFacts.

(** ** Facts about rounding to binary64 *)

Module Binary64Facts.
Import Binary64.

Lemma pow2_Qpower e : pow2 e == 2 ^ e.
Proof.
  unfold pow2. destruct (Z.leb_spec 0 e) as [H|H].
  - rewrite Zpower_Qpower by done. reflexivity.
  - rewrite Zpower_Qpower by lia. rewrite Qpower_opp.
    unfold Qdiv. rewrite Qinv_involutive. apply Qmult_1_l.
Qed.

Lemma pow2_add a b : pow2 (a + b) == pow2 a * pow2 b.
Proof. rewrite !pow2_Qpower. apply Qpower_plus. discriminate. Qed.

Lemma pow2_pos e : 0 < pow2 e.
Proof. rewrite pow2_Qpower. apply Qpower_0_lt. reflexivity. Qed.

Lemma pow2_le a b : (a ≤ b)%Z → pow2 a <= pow2 b.
Proof.
  intros L. rewrite !pow2_Qpower.
  apply Qpower_le_compat_l; [done|]. discriminate.
Qed.

Lemma pow2_nonneg e : (0 ≤ e)%Z → pow2 e = inject_Z (2 ^ e).
Proof. intros L. unfold pow2. by destruct (Z.leb_spec 0 e); [|lia]. Qed.

(** *** Nearest integer *)

Lemma round_half_even_Z k : round_half_even (inject_Z k) = k.
Proof.
  unfold round_half_even. rewrite Qfloor_Z.
  destruct (Qcompare_spec (inject_Z k - inject_Z k) (1 # 2));
    [lra|done|lra].
Qed.

Lemma round_half_even_monotone x y :
  x <= y → (round_half_even x ≤ round_half_even y)%Z.
Proof.
  intros L. pose proof (Qfloor_resp_le _ _ L) as Hf.
  unfold round_half_even.
  destruct (Z.eq_dec (Qfloor x) (Qfloor y)) as [E|NE].
  - rewrite E.
    destruct (Qcompare_spec (x - inject_Z (Qfloor y)) (1 # 2)),
             (Qcompare_spec (y - inject_Z (Qfloor y)) (1 # 2));
      try destruct (Z.even (Qfloor y)); try lia; lra.
  - assert (Qfloor x + 1 ≤ Qfloor y)%Z by lia.
    destruct (Qcompare (x - inject_Z (Qfloor x)) (1 # 2)),
             (Qcompare (y - inject_Z (Qfloor y)) (1 # 2));
      try destruct (Z.even (Qfloor x));
      try destruct (Z.even (Qfloor y)); lia.
Qed.

Lemma round_half_even_lower k q :
  inject_Z k <= q → (k ≤ round_half_even q)%Z.
Proof.
  intros L. rewrite <- (round_half_even_Z k) at 1.
  by apply round_half_even_monotone.
Qed.

Lemma round_half_even_upper k q :
  q <= inject_Z k → (round_half_even q ≤ k)%Z.
Proof.
  intros L. rewrite <- (round_half_even_Z k) at 1.
  by apply round_half_even_monotone.
Qed.

(** *** The binade of a positive number *)

Lemma binade_spec a :
  0 < a → pow2 (binade a) <= a ∧ a < pow2 (binade a + 1).
Proof.
  destruct a as [n d]. intros Hpos.
  assert (0 < n)%Z as Hn.
  { unfold Qlt in Hpos. simpl in Hpos. lia. }
  unfold binade. cbn [Qnum Qden].
  set (ln := Z.log2 n). set (ld := Z.log2 (Z.pos d)).
  destruct (Z.log2_spec n Hn) as [Hn1 Hn2]. fold ln in Hn1, Hn2.
  destruct (Z.log2_spec (Z.pos d) (Pos2Z.is_pos d)) as [Hd1 Hd2].
  fold ld in Hd1, Hd2.
  assert (0 ≤ ln)%Z as Hln by apply Z.log2_nonneg.
  assert (0 ≤ ld)%Z as Hld by apply Z.log2_nonneg.
  assert (pow2 ln <= inject_Z n) as Qn1.
  { rewrite pow2_nonneg by done. by rewrite <- Zle_Qle. }
  assert (inject_Z n < pow2 (ln + 1)) as Qn2.
  { rewrite pow2_nonneg by lia. rewrite <- Zlt_Qlt.
    by rewrite <- Z.add_1_r in Hn2. }
  assert (pow2 ld <= inject_Z (Z.pos d)) as Qd1.
  { rewrite pow2_nonneg by done. by rewrite <- Zle_Qle. }
  assert (inject_Z (Z.pos d) < pow2 (ld + 1)) as Qd2.
  { rewrite pow2_nonneg by lia. rewrite <- Zlt_Qlt.
    by rewrite <- Z.add_1_r in Hd2. }
  assert (0 < inject_Z (Z.pos d)) as Qd0.
  { rewrite <- (Zlt_Qlt 0). lia. }
  assert ((n # d) * inject_Z (Z.pos d) == inject_Z n) as Hnd.
  { rewrite (Qmake_Qdiv n d). field. lra. }
  set (a := n # d) in *. set (D := inject_Z (Z.pos d)) in *.
  set (N := inject_Z n) in *. clearbody a D N.
  pose proof (pow2_pos ld) as Pld.
  pose proof (pow2_pos (ln - ld - 1)) as Ple1.
  pose proof (pow2_pos (ln - ld + 1)) as Ple2.
  assert (pow2 (ln + 1) == pow2 (ln - ld + 1) * pow2 ld) as E1.
  { rewrite <- pow2_add.
    by replace (ln - ld + 1 + ld)%Z with (ln + 1)%Z by lia. }
  assert (pow2 ln == pow2 (ln - ld - 1) * pow2 (ld + 1)) as E2.
  { rewrite <- pow2_add.
    by replace (ln - ld - 1 + (ld + 1))%Z with ln by lia. }
  assert (a < pow2 (ln - ld + 1)) as Hup.
  { apply Qnot_le_lt. intros Hc.
    assert (pow2 (ln - ld + 1) * pow2 ld <= a * D) as H.
    { apply Qmult_le_compat_nonneg; split; lra. }
    rewrite E1, <- Hnd in Qn2. by apply Qlt_not_le in Qn2. }
  assert (pow2 (ln - ld - 1) <= a) as Hlow.
  { apply Qnot_lt_le. intros Hc.
    assert (a * D < pow2 (ln - ld - 1) * pow2 (ld + 1)) as H.
    { apply Qlt_le_trans with (pow2 (ln - ld - 1) * D).
      - by apply Qmult_lt_compat_r.
      - apply Qmult_le_compat_nonneg; split; lra. }
    rewrite E2, <- Hnd in Qn1. by apply Qlt_not_le in H. }
  destruct (Qle_bool (pow2 (ln - ld)) a) eqn:E.
  - apply Qle_bool_iff in E. by split.
  - split; [done|]. replace (ln - ld - 1 + 1)%Z with (ln - ld)%Z by lia.
    apply Qnot_le_lt. intros ?%Qle_bool_iff. congruence.
Qed.

Lemma binade_monotone a b : 0 < a → a <= b → (binade a ≤ binade b)%Z.
Proof.
  intros Ha L.
  destruct (binade_spec a Ha) as [La _].
  destruct (binade_spec b) as [_ Ub]; [lra|].
  destruct (Z_le_gt_dec (binade a) (binade b)) as [|Hgt]; [done|].
  assert (pow2 (binade b + 1) <= pow2 (binade a)) by (apply pow2_le; lia).
  lra.
Qed.

(** *** Rounding of a positive number *)

Lemma round_pos_nonneg a : 0 < a → 0 <= round_pos a.
Proof.
  intros Ha. unfold round_pos.
  pose proof (pow2_pos (exponent a - 52)) as Hp.
  apply Qmult_le_0_compat; [|lra].
  rewrite <- (Zle_Qle 0). apply round_half_even_lower.
  apply Qle_shift_div_l; [done|]. change (inject_Z 0) with 0.
  rewrite Qmult_0_l. lra.
Qed.

Lemma round_pos_upper a : 0 < a → round_pos a <= pow2 (exponent a + 1).
Proof.
  intros Ha. unfold round_pos.
  pose proof (pow2_pos (exponent a - 52)) as Hp.
  destruct (binade_spec a Ha) as [_ Hb].
  assert (pow2 (binade a + 1) <= pow2 (exponent a + 1))
    by (apply pow2_le; unfold exponent; lia).
  assert (pow2 (exponent a + 1) == pow2 53 * pow2 (exponent a - 52)) as E.
  { rewrite <- pow2_add.
    by replace (53 + (exponent a - 52))%Z with (exponent a + 1)%Z by lia. }
  rewrite E. apply Qmult_le_compat_r; [|lra].
  rewrite (pow2_nonneg 53) by lia. rewrite <- Zle_Qle.
  apply round_half_even_upper. rewrite <- (pow2_nonneg 53) by lia.
  apply Qle_shift_div_r; [done|]. rewrite <- E. lra.
Qed.

Lemma round_pos_lower a :
  0 < a → exponent a = binade a → pow2 (exponent a) <= round_pos a.
Proof.
  intros Ha He. unfold round_pos.
  pose proof (pow2_pos (exponent a - 52)) as Hp.
  destruct (binade_spec a Ha) as [Hb _]. rewrite <- He in Hb.
  assert (pow2 (exponent a) == pow2 52 * pow2 (exponent a - 52)) as E.
  { rewrite <- pow2_add.
    by replace (52 + (exponent a - 52))%Z with (exponent a) by lia. }
  rewrite E at 1. apply Qmult_le_compat_r; [|lra].
  rewrite (pow2_nonneg 52) by lia. rewrite <- Zle_Qle.
  apply round_half_even_lower. rewrite <- (pow2_nonneg 52) by lia.
  apply Qle_shift_div_l; [done|]. rewrite <- E. lra.
Qed.

Lemma round_pos_monotone a b :
  0 < a → a <= b → round_pos a <= round_pos b.
Proof.
  intros Ha L. assert (0 < b) as Hb by lra.
  pose proof (binade_monotone a b Ha L) as Hbin.
  destruct (Z.eq_dec (exponent a) (exponent b)) as [E|NE].
  - unfold round_pos. rewrite E.
    pose proof (pow2_pos (exponent b - 52)) as Hp.
    apply Qmult_le_compat_r; [|lra]. rewrite <- Zle_Qle.
    apply round_half_even_monotone.
    apply Qmult_le_compat_r; [done|].
    apply Qlt_le_weak, Qinv_lt_0_compat, Hp.
  - assert (exponent a + 1 ≤ exponent b)%Z by (unfold exponent in *; lia).
    assert (exponent b = binade b) as Eb by (unfold exponent in *; lia).
    pose proof (round_pos_upper a Ha).
    pose proof (round_pos_lower b Hb Eb).
    assert (pow2 (exponent a + 1) <= pow2 (exponent b)) by by apply pow2_le.
    lra.
Qed.

(** *** [round64] keeps the order *)

Lemma round64_pos q : 0 < q → round64 q == round_pos q.
Proof.
  intros Hq. unfold round64.
  assert (Qeq_bool q 0 = false) as ->.
  { destruct (Qeq_bool q 0) eqn:E; [|done]. apply Qeq_bool_eq in E. lra. }
  assert (Qle_bool 0 q = true) as -> by (apply Qle_bool_iff; lra).
  rewrite Qred_correct.
  assert (Qabs q = q) as ->; [|done].
  destruct q as [[|n|n] d]; try done.
Qed.

Lemma round64_zero q : q == 0 → round64 q = 0.
Proof. intros E. unfold round64. by apply Qeq_eq_bool in E as ->. Qed.

Lemma round64_neg q : q < 0 → round64 q == - round_pos (- q).
Proof.
  intros Hq. unfold round64.
  assert (Qeq_bool q 0 = false) as ->.
  { destruct (Qeq_bool q 0) eqn:E; [|done]. apply Qeq_bool_eq in E. lra. }
  assert (Qle_bool 0 q = false) as ->.
  { destruct (Qle_bool 0 q) eqn:E; [|done]. apply Qle_bool_iff in E. lra. }
  rewrite Qred_correct.
  assert (Qabs q = - q) as ->; [|done].
  destruct q as [[|n|n] d]; done.
Qed.

Lemma round64_monotone : monotone round64.
Proof.
  intros x y L.
  destruct (Q_dec x 0) as [[Hx|Hx]|Hx], (Q_dec y 0) as [[Hy|Hy]|Hy];
    try lra.
  - rewrite (round64_neg x Hx), (round64_neg y Hy).
    assert (round_pos (- y) <= round_pos (- x))
      by (apply round_pos_monotone; lra).
    lra.
  - rewrite (round64_neg x Hx), (round64_pos y Hy).
    pose proof (round_pos_nonneg (- x)). pose proof (round_pos_nonneg y).
    lra.
  - rewrite (round64_neg x Hx), (round64_zero y Hy).
    pose proof (round_pos_nonneg (- x)). lra.
  - rewrite (round64_pos x Hx), (round64_pos y Hy).
    by apply round_pos_monotone.
  - rewrite (round64_zero x Hx), (round64_pos y Hy).
    by apply round_pos_nonneg.
  - rewrite (round64_zero x Hx), (round64_zero y Hy). lra.
Qed.

(** *** Rounded constants and differences

    The decimal literals [0.1], [1760000135.0749137] and
    [1760000135.1749136] as floats, and differences of floats, agree with
    the subtraction of the standard library's specification of IEEE 754
    ([prec = 53], [emax = 1024]). *)

Example round64_literals :
  round64 (1 # 10) = 3602879701896397 # 36028797018963968 ∧
  round64 (17600001350749137 # 10000000) = 7381975606545251 # 4194304 ∧
  round64 (17600001351749136 # 10000000) = 7381975606964681 # 4194304 ∧
  round64 (10 ^ 16 - 1) = 10 ^ 16.
Proof. repeat split; vm_compute; reflexivity. Qed.

Example round64_agrees_with_SFsub :
  let w := S754_finite false 7205759403792794 (-56) in
  let t1 := S754_finite false 7381975606545251 (-22) in
  let t2 := S754_finite false 7381975606964681 (-22) in
  let big := S754_finite false 5000000000000000 1 in
  let one := S754_finite false 4503599627370496 (-52) in
  SF2Q (SFsub 53 1024 t2 w) = round64 (SF2Q t2 - SF2Q w) ∧
  SF2Q (SFsub 53 1024 t2 w) = SF2Q t1 ∧
  SF2Q (SFsub 53 1024 big one) = round64 (SF2Q big - SF2Q one) ∧
  SF2Q (SFsub 53 1024 big one) = SF2Q big.
Proof. repeat split; vm_compute; reflexivity. Qed.

End Binary64Facts.

(** ** Facts about the sliding-window limiter with floating-point
    arithmetic *)

Module SlidingWindowBinary64Facts.
Import Binary64 SlidingWindowBinary64.
Import SlidingWindowRateLimiter(op, CanSend, Record, TimeUntil, outcome,
  Allowed, Recorded, Wait, drop_expired, op_time, op_user, appended,
  accepted, clock_monotone, final_time, nondecreasing_times, count_in_window,
  in_window).
Import SlidingWindowFacts.

Section Cleaned.
Implicit Types (s : limiter) (u v : string) (t b : Q).

Lemma limiter_ext s s' :
  window_size s = window_size s' →
  max_requests s = max_requests s' →
  user_requests s = user_requests s' →
  blocked_requests s = blocked_requests s' →
  s = s'.
Proof. destruct s, s'; simpl. by intros -> -> -> ->. Qed.

Lemma cleaned_window_size b s u : window_size (cleaned b s u) = window_size s.
Proof.
  unfold cleaned. destruct (user_requests s !! u) as [dq|]; [|done].
  by destruct (drop_expired b dq).
Qed.

Lemma cleaned_max_requests b s u : max_requests (cleaned b s u) = max_requests s.
Proof.
  unfold cleaned. destruct (user_requests s !! u) as [dq|]; [|done].
  by destruct (drop_expired b dq).
Qed.

Lemma cleaned_blocked_requests b s u :
  blocked_requests (cleaned b s u) = blocked_requests s.
Proof.
  unfold cleaned. destruct (user_requests s !! u) as [dq|]; [|done].
  by destruct (drop_expired b dq).
Qed.

Lemma cleaned_lookup_same b s u :
  user_requests (cleaned b s u) !! u =
  match drop_expired b (deque_of s u) with
  | [] => None
  | dq => Some dq
  end.
Proof.
  unfold deque_of, cleaned.
  destruct (user_requests s !! u) as [dq|] eqn:Hu; simpl; [|by rewrite Hu].
  destruct (drop_expired b dq); simpl.
  - apply lookup_delete_eq.
  - apply lookup_insert_eq.
Qed.

Lemma cleaned_lookup_other b s u v :
  u ≠ v → user_requests (cleaned b s u) !! v = user_requests s !! v.
Proof.
  intros Hne. unfold cleaned.
  destruct (user_requests s !! u) as [dq|]; [|done].
  destruct (drop_expired b dq); simpl.
  - by apply lookup_delete_ne.
  - by apply lookup_insert_ne.
Qed.

Lemma cleaned_deque_same b s u :
  deque_of (cleaned b s u) u = drop_expired b (deque_of s u).
Proof.
  unfold deque_of at 1. rewrite cleaned_lookup_same.
  by destruct (drop_expired b (deque_of s u)).
Qed.

Lemma cleaned_has_room b s u :
  has_room (cleaned b s u) u =
  match drop_expired b (deque_of s u) with
  | [] => true
  | dq => (Z.of_nat (length dq) <? max_requests s)%Z
  end.
Proof.
  unfold has_room. rewrite cleaned_lookup_same, cleaned_max_requests.
  by destruct (drop_expired b (deque_of s u)).
Qed.

Lemma cleaned_later b1 b2 s u :
  b1 <= b2 → cleaned b2 (cleaned b1 s u) u = cleaned b2 s u.
Proof.
  intros L. apply limiter_ext.
  - by rewrite !cleaned_window_size.
  - by rewrite !cleaned_max_requests.
  - apply map_eq. intros v. destruct (decide (u = v)) as [<-|Hne].
    + rewrite !cleaned_lookup_same, cleaned_deque_same.
      by rewrite drop_expired_later.
    + by rewrite !cleaned_lookup_other.
  - by rewrite !cleaned_blocked_requests.
Qed.

End Cleaned.

(** *** The operations when [window_size] converts to a float *)

Section Fits.
Variable rnd : Q → Q.
Implicit Types (s : limiter) (u v : string) (t b w : Q).

Lemma popleft_expired_fits W w t dq :
  to_float rnd W = Done w →
  popleft_expired rnd W t dq = Done (drop_expired (rnd (t - w)) dq).
Proof.
  intros Hw. induction dq as [|ts rest IH]; simpl; [done|].
  rewrite Hw. by destruct (Qle_bool ts (rnd (t - w))).
Qed.

Lemma cleanup_fits s u t w :
  to_float rnd (window_size s) = Done w →
  _cleanup_window rnd s u t = Done (cleaned (rnd (t - w)) s u).
Proof.
  intros Hw. unfold _cleanup_window, cleaned.
  destruct (user_requests s !! u) as [dq|]; [|done].
  rewrite (popleft_expired_fits _ _ _ _ Hw).
  by destruct (drop_expired _ dq).
Qed.

Lemma can_send_message_fits s u t w :
  to_float rnd (window_size s) = Done w →
  can_send_message rnd s u t =
  Done (has_room (cleaned (rnd (t - w)) s u) u, cleaned (rnd (t - w)) s u).
Proof. intros Hw. unfold can_send_message. by rewrite (cleanup_fits _ _ _ _ Hw). Qed.

Lemma record_message_fits s u t w :
  to_float rnd (window_size s) = Done w →
  record_message rnd s u t =
  Done (if has_room (cleaned (rnd (t - w)) s u) u then
          (true, with_requests (cleaned (rnd (t - w)) s u)
                   (<[u := drop_expired (rnd (t - w)) (deque_of s u) ++ [t]]>
                      (user_requests (cleaned (rnd (t - w)) s u))))
        else
          (false, Limiter (window_size s) (max_requests s)
                    (user_requests (cleaned (rnd (t - w)) s u))
                    (blocked_requests s + 1)%Z)).
Proof.
  intros Hw. unfold record_message.
  rewrite (can_send_message_fits _ _ _ _ Hw).
  destruct (has_room _ u).
  - do 4 f_equal. rewrite <- cleaned_deque_same. done.
  - by rewrite cleaned_window_size, cleaned_max_requests,
       cleaned_blocked_requests.
Qed.

Lemma time_until_next_allowed_fits s u t w :
  to_float rnd (window_size s) = Done w →
  time_until_next_allowed rnd s u t =
  Done (if has_room (cleaned (rnd (t - w)) s u) u then 0
        else match drop_expired (rnd (t - w)) (deque_of s u) with
             | [] => 0
             | oldest :: _ => py_max 0 (rnd (rnd (oldest + w) - t))
             end,
        cleaned (rnd (t - w)) s u).
Proof.
  intros Hw. unfold time_until_next_allowed.
  rewrite (cleanup_fits _ _ _ _ Hw).
  destruct (has_room _ u) eqn:Hroom; [done|].
  rewrite cleaned_has_room in Hroom.
  rewrite cleaned_lookup_same, cleaned_window_size, Hw.
  by destruct (drop_expired _ (deque_of s u)).
Qed.

Lemma rounded_step_total s o w :
  to_float rnd (window_size s) = Done w → ∃ out s', step rnd s o = Done (out, s').
Proof.
  intros Hw. destruct o as [u t|u t|u t]; simpl.
  - rewrite (can_send_message_fits _ _ _ _ Hw). by eexists _, _.
  - rewrite (record_message_fits _ _ _ _ Hw).
    destruct (has_room _ u); by eexists _, _.
  - rewrite (time_until_next_allowed_fits _ _ _ _ Hw). by eexists _, _.
Qed.

Lemma rounded_step_config s o out s' w :
  to_float rnd (window_size s) = Done w → step rnd s o = Done (out, s') →
  window_size s' = window_size s ∧ max_requests s' = max_requests s.
Proof.
  intros Hw. destruct o as [u t|u t|u t]; simpl.
  - rewrite (can_send_message_fits _ _ _ _ Hw). intros [= _ <-].
    by rewrite cleaned_window_size, cleaned_max_requests.
  - rewrite (record_message_fits _ _ _ _ Hw).
    destruct (has_room _ u); intros [= _ <-]; simpl;
      by rewrite ?cleaned_window_size, ?cleaned_max_requests.
  - rewrite (time_until_next_allowed_fits _ _ _ _ Hw). intros [= _ <-].
    by rewrite cleaned_window_size, cleaned_max_requests.
Qed.

Lemma rounded_step_lookup_other s o out s' w v :
  to_float rnd (window_size s) = Done w → step rnd s o = Done (out, s') →
  op_user o ≠ v → user_requests s' !! v = user_requests s !! v.
Proof.
  intros Hw. destruct o as [u t|u t|u t]; simpl; intros Hstep Hne.
  - rewrite (can_send_message_fits _ _ _ _ Hw) in Hstep.
    injection Hstep as _ <-. by apply cleaned_lookup_other.
  - rewrite (record_message_fits _ _ _ _ Hw) in Hstep.
    destruct (has_room _ u); injection Hstep as _ <-; simpl.
    + rewrite lookup_insert_ne by done. by apply cleaned_lookup_other.
    + by apply cleaned_lookup_other.
  - rewrite (time_until_next_allowed_fits _ _ _ _ Hw) in Hstep.
    injection Hstep as _ <-. by apply cleaned_lookup_other.
Qed.

Lemma rounded_step_lookup_same s o out s' w :
  to_float rnd (window_size s) = Done w → step rnd s o = Done (out, s') →
  user_requests s' !! op_user o =
  match drop_expired (rnd (op_time o - w)) (deque_of s (op_user o))
        ++ appended o out with
  | [] => None
  | dq => Some dq
  end.
Proof.
  intros Hw. destruct o as [u t|u t|u t]; simpl; intros Hstep.
  - rewrite (can_send_message_fits _ _ _ _ Hw) in Hstep.
    injection Hstep as <- <-. simpl. rewrite app_nil_r.
    apply cleaned_lookup_same.
  - rewrite (record_message_fits _ _ _ _ Hw) in Hstep.
    destruct (has_room _ u); injection Hstep as <- <-; simpl.
    + rewrite lookup_insert_eq. by destruct (drop_expired _ _).
    + rewrite app_nil_r. apply cleaned_lookup_same.
  - rewrite (time_until_next_allowed_fits _ _ _ _ Hw) in Hstep.
    injection Hstep as <- <-. simpl. rewrite app_nil_r.
    apply cleaned_lookup_same.
Qed.

Lemma rounded_step_deque_same s o out s' w :
  to_float rnd (window_size s) = Done w → step rnd s o = Done (out, s') →
  deque_of s' (op_user o) =
  drop_expired (rnd (op_time o - w)) (deque_of s (op_user o)) ++ appended o out.
Proof.
  intros Hw Hstep. unfold deque_of at 1.
  rewrite (rounded_step_lookup_same _ _ _ _ _ Hw Hstep). by destruct (_ ++ _).
Qed.

Lemma rounded_step_deque_other s o out s' w v :
  to_float rnd (window_size s) = Done w → step rnd s o = Done (out, s') →
  op_user o ≠ v → deque_of s' v = deque_of s v.
Proof.
  intros Hw Hstep Hne. unfold deque_of.
  by rewrite (rounded_step_lookup_other _ _ _ _ _ _ Hw Hstep Hne).
Qed.

Lemma rounded_step_accept_room s u t s' w :
  to_float rnd (window_size s) = Done w →
  step rnd s (Record u t) = Done (Recorded true, s') →
  match drop_expired (rnd (t - w)) (deque_of s u) with
  | [] => True
  | dq => (Z.of_nat (length dq) < max_requests s)%Z
  end.
Proof.
  intros Hw. simpl. rewrite (record_message_fits _ _ _ _ Hw).
  destruct (has_room _ u) eqn:Hroom; [|by intros [=]]. intros _.
  rewrite cleaned_has_room in Hroom.
  destruct (drop_expired _ _); [done|]. by apply Z.ltb_lt.
Qed.

Lemma rounded_run_total s ops w :
  to_float rnd (window_size s) = Done w →
  ∃ log s', run rnd s ops = Done (log, s').
Proof.
  revert s. induction ops as [|o ops IH]; intros s Hw; simpl.
  - by eexists _, _.
  - destruct (rounded_step_total s o w Hw) as (out & s1 & Hstep). rewrite Hstep.
    destruct (rounded_step_config _ _ _ _ _ Hw Hstep) as [Hw1 _].
    destruct (IH s1) as (log & s2 & ->); [by rewrite Hw1|]. by eexists _, _.
Qed.

End Fits.

(** *** Exact arithmetic is the rounding that changes nothing *)

Section Exact.
Implicit Types (s : SW.limiter) (u : string) (t : Q).

Lemma exact_cleanup s u t :
  _cleanup_window (λ x, x) (of_exact s) u t =
  Done (of_exact (SW._cleanup_window s u t)).
Proof.
  rewrite (cleanup_fits (λ x, x) (of_exact s) u t (SW.window_size s))
    by done.
  unfold cleaned, SW._cleanup_window, of_exact. simpl.
  destruct (SW.user_requests s !! u) as [dq|]; [|done].
  by destruct (drop_expired _ dq).
Qed.

Lemma exact_step s o :
  step (λ x, x) (of_exact s) o =
  match SW.step s o with
  | Ok (out, s') => Done (out, of_exact s')
  | Raise e => Throw (LookupError e)
  end.
Proof.
  destruct o as [u t|u t|u t]; simpl.
  - unfold can_send_message, SW.can_send_message.
    by rewrite exact_cleanup.
  - unfold record_message, SW.record_message, can_send_message,
      SW.can_send_message.
    rewrite exact_cleanup.
    change (has_room (of_exact (SW._cleanup_window s u t)) u)
      with (SW.has_room (SW._cleanup_window s u t) u).
    by destruct (SW.has_room _ u).
  - unfold time_until_next_allowed, SW.time_until_next_allowed.
    rewrite exact_cleanup.
    change (has_room (of_exact (SW._cleanup_window s u t)) u)
      with (SW.has_room (SW._cleanup_window s u t) u).
    destruct (SW.has_room _ u); [done|]. simpl.
    destruct (SW.user_requests (SW._cleanup_window s u t) !! u)
      as [[|oldest dq]|]; done.
Qed.

Lemma exact_run s ops :
  run (λ x, x) (of_exact s) ops =
  match SW.run s ops with
  | Ok (log, s') => Done (log, of_exact s')
  | Raise e => Throw (LookupError e)
  end.
Proof.
  revert s. induction ops as [|o ops IH]; intros s; simpl; [done|].
  rewrite exact_step. destruct (SW.step s o) as [[out s1]|e]; [|done].
  rewrite IH. by destruct (SW.run s1 ops) as [[log s2]|e].
Qed.

End Exact.

(** *** Admissions per computed window *)

Section AdmissionBound.
Variable rnd : Q → Q.
Hypothesis rnd_monotone : monotone rnd.
Variable u : string.
Implicit Types (s : limiter) (t clk T w : Q) (A : list Q).

Lemma count_between_app lo hi A1 A2 :
  count_between lo hi (A1 ++ A2) =
  (count_between lo hi A1 + count_between lo hi A2)%nat.
Proof. unfold count_between. by rewrite List.filter_app, length_app. Qed.

Lemma count_between_le lo hi A : (count_between lo hi A <= length A)%nat.
Proof. apply List.filter_length_le. Qed.

Lemma count_between_expired lo hi b A :
  b <= lo → Forall (λ ts, ts <= b) A → count_between lo hi A = O.
Proof.
  intros L. unfold count_between.
  induction 1 as [|x A Hx _ IH]; simpl; [done|].
  assert (x <= lo) as ->%Qle_bool_iff by lra. simpl. exact IH.
Qed.

Lemma count_between_future lo hi t : hi < t → count_between lo hi [t] = O.
Proof.
  intros L. unfold count_between. simpl.
  apply Qle_bool_false in L as ->. by rewrite andb_false_r.
Qed.

Lemma count_between_exact w T A :
  count_between (T - w) T A = count_in_window w T A.
Proof. done. Qed.

Lemma count_between_bound lo lo' hi A :
  lo == lo' → count_between lo hi A = count_between lo' hi A.
Proof.
  intros E. unfold count_between. f_equal. apply List.filter_ext.
  intros ts. f_equal. f_equal.
  destruct (Qle_bool ts lo) eqn:E1, (Qle_bool ts lo') eqn:E2; try done.
  - apply Qle_bool_iff in E1. apply Qle_bool_false in E2. lra.
  - apply Qle_bool_iff in E2. apply Qle_bool_false in E1. lra.
Qed.

Lemma rounded_init_ledger w b W n :
  ledger rnd w (Z.max 1 n) u b (Limiter W n ∅ 0%Z) [].
Proof.
  split.
  - exists []. split; [|constructor].
    unfold deque_of. simpl. by rewrite lookup_empty.
  - intros T. unfold count_between. simpl. lia.
Qed.

Lemma rounded_step_ledger clk w s A o out s' :
  to_float rnd (window_size s) = Done w →
  ledger rnd w (Z.max 1 (max_requests s)) u (rnd (clk - w)) s A →
  clk <= op_time o → step rnd s o = Done (out, s') →
  ledger rnd w (Z.max 1 (max_requests s)) u (rnd (op_time o - w)) s'
    (A ++ accepted u [(o, out)]).
Proof.
  intros Hw [(old & HA & Hold) Hcount] L Hstep.
  assert (rnd (clk - w) <= rnd (op_time o - w)) as Hb
    by (apply rnd_monotone; lra).
  unfold ledger.
  destruct (decide (op_user o = u)) as [Hu|Hne].
  - rewrite (accepted_single_same _ _ _ Hu). subst u.
    rewrite (rounded_step_deque_same _ _ _ _ _ _ Hw Hstep).
    destruct (drop_expired_split (rnd (op_time o - w))
                (deque_of s (op_user o))) as (old2 & Hsplit & Hold2).
    assert (Forall (λ ts, ts <= rnd (op_time o - w)) (old ++ old2)) as Hexp.
    { apply Forall_app. split; [|done].
      eapply Forall_impl; [exact Hold|]. simpl. intros. lra. }
    split.
    + exists (old ++ old2). split; [|done].
      rewrite HA, Hsplit at 1. by rewrite !app_assoc.
    + intros T.
      destruct o as [v t|v t|v t], out as [b|[]|d]; simpl in *;
        rewrite ?app_nil_r; try apply Hcount.
      rewrite count_between_app.
      destruct (Qlt_le_dec T t) as [Hlt|Hle].
      * rewrite (count_between_future _ _ _ Hlt). specialize (Hcount T). lia.
      * assert (rnd (t - w) <= rnd (T - w)) as Hlo
          by (apply rnd_monotone; lra).
        rewrite HA, Hsplit, app_assoc, count_between_app.
        rewrite (count_between_expired _ _ _ _ Hlo Hexp).
        pose proof (count_between_le (rnd (T - w)) T
                      (drop_expired (rnd (t - w)) (deque_of s v))).
        pose proof (count_between_le (rnd (T - w)) T [t]).
        pose proof (rounded_step_accept_room _ _ _ _ _ _ Hw Hstep) as Hroom.
        destruct (drop_expired (rnd (t - w)) (deque_of s v));
          simpl in *; lia.
  - rewrite (accepted_single_other _ _ _ Hne), app_nil_r.
    rewrite (rounded_step_deque_other _ _ _ _ _ _ _ Hw Hstep Hne).
    split; [|done]. exists old. split; [done|].
    eapply Forall_impl; [exact Hold|]. simpl. intros. lra.
Qed.

Lemma rounded_run_ledger clk w s A ops log s' :
  to_float rnd (window_size s) = Done w →
  ledger rnd w (Z.max 1 (max_requests s)) u (rnd (clk - w)) s A →
  clock_monotone clk ops = true →
  run rnd s ops = Done (log, s') →
  ledger rnd w (Z.max 1 (max_requests s)) u (rnd (final_time clk ops - w)) s'
    (A ++ accepted u log).
Proof.
  revert clk s A log. induction ops as [|o ops IH]; intros clk s A log; simpl.
  - intros _ HL _ [= <- <-]. simpl. by rewrite app_nil_r.
  - intros Hw HL [L%Qle_bool_iff Hmono]%andb_prop Hrun.
    destruct (step rnd s o) as [[out s1]|] eqn:Hstep; [|done].
    destruct (run rnd s1 ops) as [[log1 s2]|] eqn:Hrest; [|done].
    injection Hrun as <- <-.
    destruct (rounded_step_config _ _ _ _ _ _ Hw Hstep) as [Hw1 Hn1].
    rewrite accepted_cons, app_assoc. rewrite <- Hn1.
    eapply IH; [by rewrite Hw1|rewrite Hn1|exact Hmono|exact Hrest].
    by eapply rounded_step_ledger.
Qed.

End AdmissionBound.

(** *** What the loop of a cleanup leaves *)

Section CleanupResult.
Implicit Types (s : limiter) (u v : string) (t b : Q).

Lemma drop_expired_head b dq :
  match drop_expired b dq with
  | [] => True
  | ts :: _ => b < ts
  end.
Proof.
  induction dq as [|x dq IH]; simpl; [done|].
  case_Qle x b; [exact IH | done].
Qed.

(** The deque of [u] splits into the timestamps the loop pops, all at or
    below the bound, and the rest, which starts above the bound; the entry
    of [u] holds the rest and is gone when the rest is empty. *)
Lemma cleaned_result b s u :
  ∃ old rest,
    rest = drop_expired b (deque_of s u) ∧
    deque_of s u = old ++ rest ∧
    Forall (λ ts, ts <= b) old ∧
    match rest with [] => True | oldest :: _ => b < oldest end ∧
    user_requests (cleaned b s u) !! u =
      match rest with [] => None | _ :: _ => Some rest end ∧
    has_room (cleaned b s u) u =
      match rest with
      | [] => true
      | _ :: _ => (Z.of_nat (length rest) <? max_requests s)%Z
      end.
Proof.
  destruct (drop_expired_split b (deque_of s u)) as (old & Hsplit & Hold).
  exists old, (drop_expired b (deque_of s u)).
  split; [done|]. split; [done|]. split; [done|].
  split; [apply drop_expired_head|].
  rewrite cleaned_lookup_same, cleaned_has_room.
  by destruct (drop_expired b (deque_of s u)).
Qed.

End CleanupResult.

(** C1 (amended). For every rounding that keeps the order, every
    [window_size] that converts to a float [w], every [max_requests = n]
    and every script of calls at non-decreasing times, the script runs to
    its end, and for every user and every [T] at most [max 1 n] accepted
    [record_message] calls of the user have a time in the window
    [(fl (T - w), T]] that the cleanup computes; where the computed bound
    is the exact [T - window_size], that is the trailing window of length
    [window_size]. *)
Theorem C1_admissions_per_computed_window
  (rnd : Q → Q) (W : number) (w : Q) (n : Z) (ops : list op) (u : string)
  (T : Q) :
  monotone rnd →
  to_float rnd W = Done w →
  nondecreasing_times ops = true →
  ∃ log s,
    script rnd W n ops = Done (log, s) ∧
    (Z.of_nat (count_between (rnd (T - w)%Q) T (accepted u log))
     <= Z.max 1 n)%Z ∧
    (rnd (T - w) == T - value W →
     (Z.of_nat (count_in_window (value W) T (accepted u log))
      <= Z.max 1 n)%Z).
Proof.
  intros Hrnd Hw Hmono. unfold script, init.
  destruct (rounded_run_total rnd (Limiter W n ∅ 0) ops w Hw) as (log & s & Hrun).
  exists log, s. split; [done|].
  assert (∀ T', (Z.of_nat (count_between (rnd (T' - w)%Q) T' (accepted u log))
                 <= Z.max 1 n)%Z) as Hcount.
  { destruct ops as [|o ops].
    - injection Hrun as <- <-. intros T'. unfold count_between. simpl. lia.
    - assert (clock_monotone (op_time o) (o :: ops) = true) as Hmono'.
      { simpl. apply andb_true_intro. split; [|done].
        apply Qle_bool_iff. lra. }
      pose proof (rounded_run_ledger rnd Hrnd u (op_time o) w (Limiter W n ∅ 0) []
                    (o :: ops) log s Hw
                    (rounded_init_ledger rnd u w (rnd (op_time o - w)) W n)
                    Hmono' Hrun) as [_ Hcount].
      exact Hcount. }
  split; [apply Hcount|].
  intros E. rewrite <- count_between_exact.
  rewrite <- (count_between_bound _ _ _ _ E). apply Hcount.
Qed.

Lemma C1_witness :
  ∃ log s,
    script round64 (PyFloat Literals.tenth) 2
      [Record "1" Literals.epoch_first; Record "2" Literals.epoch_first;
       Record "1" Literals.epoch_second; Record "1" Literals.epoch_second]
      = Done (log, s) ∧
    (Z.of_nat (count_between
                 (round64 (Literals.epoch_second - Literals.tenth)%Q)
                 Literals.epoch_second (accepted "1" log))
     <= Z.max 1 2)%Z ∧
    (round64 (Literals.epoch_second - Literals.tenth)
       == Literals.epoch_second - value (PyFloat Literals.tenth) →
     (Z.of_nat (count_in_window (value (PyFloat Literals.tenth))
                  Literals.epoch_second (accepted "1" log))
      <= Z.max 1 2)%Z).
Proof.
  apply (C1_admissions_per_computed_window round64
           (PyFloat Literals.tenth) Literals.tenth 2
           [Record "1" Literals.epoch_first; Record "2" Literals.epoch_first;
            Record "1" Literals.epoch_second;
            Record "1" Literals.epoch_second]
           "1" Literals.epoch_second Binary64Facts.round64_monotone).
  - reflexivity.
  - vm_compute. reflexivity.
Defined.

(** C1 fails as stated. With [window_size = 0.1] and [max_requests = 1],
    records at [1760000135.0749137] and [1760000135.1749136], less than
    [0.1] apart, are both accepted: the float difference
    [1760000135.1749136 - 0.1] is the first timestamp itself, which the
    cleanup therefore pops. With [window_size = 1], two records at [1e16]
    are both accepted, since [1e16 - 1] is [1e16] as a float. With
    [max_requests = 0] the first record of a user is accepted. *)
Lemma C1_counterexample :
  (Literals.epoch_first <= Literals.epoch_second ∧
   Literals.epoch_second - Literals.tenth < Literals.epoch_first ∧
   round64 (Literals.epoch_second - Literals.tenth) = Literals.epoch_first ∧
   script round64 (PyFloat Literals.tenth) 1
     [Record "1" Literals.epoch_first; Record "1" Literals.epoch_second]
   = Done ([(Record "1" Literals.epoch_first, Recorded true);
            (Record "1" Literals.epoch_second, Recorded true)],
           Limiter (PyFloat Literals.tenth) 1
             {[ "1" := [Literals.epoch_second] ]} 0) ∧
   count_in_window Literals.tenth Literals.epoch_second
     [Literals.epoch_first; Literals.epoch_second] = 2%nat) ∧
  (round64 (Literals.ten_to_16 - round64 1) = Literals.ten_to_16 ∧
   script round64 (PyInt 1) 1
     [Record "1" Literals.ten_to_16; Record "1" Literals.ten_to_16]
   = Done ([(Record "1" Literals.ten_to_16, Recorded true);
            (Record "1" Literals.ten_to_16, Recorded true)],
           Limiter (PyInt 1) 1 {[ "1" := [Literals.ten_to_16] ]} 0) ∧
   count_in_window 1 Literals.ten_to_16
     [Literals.ten_to_16; Literals.ten_to_16] = 2%nat) ∧
  (script round64 (PyInt 10) 0 [Record "1" 0]
   = Done ([(Record "1" 0, Recorded true)],
           Limiter (PyInt 10) 0 {[ "1" := [0%Q] ]} 0) ∧
   count_in_window 10 0 [0] = 1%nat).
Proof. repeat split; vm_compute; first [reflexivity | discriminate]. Qed.

(** C3 (amended). In every state whose [window_size] converts to a float
    [w], [time_until_next_allowed] for [u] at [now] returns a value [d] and
    a state [s'] such that: the cleanup was done ([old], the leading
    timestamps of [u] at or below the float [fl (now - w)], are gone;
    [rest], which starts above it, is what the entry of [u] holds; the
    entry is deleted when [rest] is empty; nothing else changed);
    [admitted] is what [can_send_message] answers, and leaves the same
    state; [d] is [0] when [admitted], and otherwise
    [max (0, oldest + w - now)] for the oldest remaining timestamp, with
    the sum and the difference rounded; [d] is never negative. *)
Theorem C3_time_until_next_allowed_value
  (rnd : Q → Q) (s : limiter) (u : string) (now w : Q) :
  to_float rnd (window_size s) = Done w →
  ∃ d s' old rest admitted,
    time_until_next_allowed rnd s u now = Done (d, s') ∧
    deque_of s u = old ++ rest ∧
    Forall (λ ts, ts <= rnd (now - w)) old ∧
    match rest with [] => True | oldest :: _ => rnd (now - w) < oldest end ∧
    user_requests s' !! u =
      match rest with [] => None | _ :: _ => Some rest end ∧
    (∀ v, v ≠ u → user_requests s' !! v = user_requests s !! v) ∧
    window_size s' = window_size s ∧
    max_requests s' = max_requests s ∧
    blocked_requests s' = blocked_requests s ∧
    can_send_message rnd s u now = Done (admitted, s') ∧
    admitted =
      match rest with
      | [] => true
      | _ :: _ => (Z.of_nat (length rest) <? max_requests s)%Z
      end ∧
    d = (if admitted then 0
         else match rest with
              | [] => 0
              | oldest :: _ => py_max 0 (rnd (rnd (oldest + w) - now))
              end) ∧
    0 <= d.
Proof.
  intros Hw.
  destruct (cleaned_result (rnd (now - w)) s u)
    as (old & rest & Hrest & Hsplit & Hold & Hhead & Hlookup & Hroom).
  rewrite (time_until_next_allowed_fits rnd s u now w Hw).
  rewrite (can_send_message_fits rnd s u now w Hw).
  rewrite <- Hrest.
  eexists _, (cleaned (rnd (now - w)) s u), old, rest, _.
  split; [reflexivity|]. split; [done|]. split; [done|]. split; [done|].
  split; [done|].
  split; [intros v Hv; by apply cleaned_lookup_other|].
  split; [apply cleaned_window_size|].
  split; [apply cleaned_max_requests|].
  split; [apply cleaned_blocked_requests|].
  split; [reflexivity|]. split; [done|]. split; [done|].
  destruct (has_room _ u); [lra|].
  destruct rest as [|oldest rest']; [lra|]. apply Q.le_max_l.
Qed.

Lemma C3_witness :
  ∃ d s' old rest admitted,
    time_until_next_allowed round64
      (Limiter (PyInt 10) 2 {[ "1" := [0; 5; 7] ]} 0) "1" 12 = Done (d, s') ∧
    deque_of (Limiter (PyInt 10) 2 {[ "1" := [0; 5; 7] ]} 0) "1"
      = old ++ rest ∧
    Forall (λ ts, ts <= round64 (12 - 10)) old ∧
    match rest with
    | [] => True
    | oldest :: _ => round64 (12 - 10) < oldest
    end ∧
    user_requests s' !! "1" =
      match rest with [] => None | _ :: _ => Some rest end ∧
    (∀ v, v ≠ "1" →
       user_requests s' !! v =
       user_requests (Limiter (PyInt 10) 2 {[ "1" := [0; 5; 7] ]} 0) !! v) ∧
    window_size s' = PyInt 10 ∧
    max_requests s' = 2%Z ∧
    blocked_requests s' = 0%Z ∧
    can_send_message round64
      (Limiter (PyInt 10) 2 {[ "1" := [0; 5; 7] ]} 0) "1" 12
      = Done (admitted, s') ∧
    admitted =
      match rest with
      | [] => true
      | _ :: _ => (Z.of_nat (length rest) <? 2)%Z
      end ∧
    d = (if admitted then 0
         else match rest with
              | [] => 0
              | oldest :: _ =>
                  py_max 0 (round64 (round64 (oldest + 10) - 12))
              end) ∧
    0 <= d.
Proof.
  apply (C3_time_until_next_allowed_value round64
           (Limiter (PyInt 10) 2 {[ "1" := [0; 5; 7] ]} 0) "1" 12 10).
  vm_compute. reflexivity.
Defined.

(** C3 fails as stated. With an [int] window too large for a float the
    call raises [OverflowError] as soon as the user has a timestamp. With
    [window_size = 0.4], a record at [0.1] and a query at [0.5], the user
    is not admitted and the call returns [0.0], while
    [oldest + window_size - now] is positive: the float sum
    [0.1 + 0.4] is [0.5]. *)
Lemma C3_counterexample :
  (script round64 (PyInt (10 ^ 400)) 1 [Record "1" 0]
   = Done ([(Record "1" 0, Recorded true)],
           Limiter (PyInt (10 ^ 400)) 1 {[ "1" := [0%Q] ]} 0) ∧
   time_until_next_allowed round64
     (Limiter (PyInt (10 ^ 400)) 1 {[ "1" := [0%Q] ]} 0) "1" 5
   = Throw OverflowError) ∧
  (script round64 (PyFloat Literals.four_tenths) 1
     [Record "1" Literals.tenth]
   = Done ([(Record "1" Literals.tenth, Recorded true)],
           Limiter (PyFloat Literals.four_tenths) 1
             {[ "1" := [Literals.tenth] ]} 0) ∧
   can_send_message round64
     (Limiter (PyFloat Literals.four_tenths) 1
        {[ "1" := [Literals.tenth] ]} 0) "1" Literals.half
   = Done (false, Limiter (PyFloat Literals.four_tenths) 1
                    {[ "1" := [Literals.tenth] ]} 0) ∧
   time_until_next_allowed round64
     (Limiter (PyFloat Literals.four_tenths) 1
        {[ "1" := [Literals.tenth] ]} 0) "1" Literals.half
   = Done (0, Limiter (PyFloat Literals.four_tenths) 1
                {[ "1" := [Literals.tenth] ]} 0) ∧
   0 < Literals.tenth + Literals.four_tenths - Literals.half ∧
   ¬ py_max 0 (Literals.tenth + Literals.four_tenths - Literals.half) == 0).
Proof.
  repeat split; try (vm_compute; first [reflexivity | discriminate]).
Qed.

End SlidingWindowBinary64Facts.

(** ** Facts about the interval limiter with floating-point arithmetic *)

Module ThrottlingBinary64Facts.
Import Binary64 ThrottlingBinary64.
Import ThrottlingRateLimiter(op, CanSend, Record, TimeUntil, outcome,
  Allowed, Recorded, Wait).

Section Interval.
Variable rnd : Q → Q.
Implicit Types (s : limiter) (u : string) (t m : Q).

Lemma interval_can_send_repeatedly k s u t :
  can_send_repeatedly rnd k s u t =
  Done (repeat (Qle_bool (value (min_interval s))
                  (rnd (t - last_message_time s u))) k, s).
Proof. induction k as [|k IH]; simpl; [done|]. by rewrite IH. Qed.

Lemma interval_step_fits s o m :
  to_float rnd (min_interval s) = Done m →
  ∃ out s', step rnd s o = Done (out, s') ∧ min_interval s' = min_interval s.
Proof.
  intros Hm. destruct o as [u t|u t|u t]; simpl.
  - by eexists _, _.
  - unfold record_message. destruct (Qle_bool _ _); by eexists _, _.
  - unfold time_until_next_allowed. rewrite Hm. by eexists _, _.
Qed.

Lemma interval_run_fits s ops m :
  to_float rnd (min_interval s) = Done m →
  ∃ log s', run rnd s ops = Done (log, s').
Proof.
  revert s. induction ops as [|o ops IH]; intros s Hm; simpl.
  - by eexists _, _.
  - destruct (interval_step_fits s o m Hm) as (out & s1 & -> & Hmi).
    destruct (IH s1) as (log & s2 & ->); [by rewrite Hmi|]. by eexists _, _.
Qed.

End Interval.

(** Exact arithmetic is the rounding that changes nothing. *)
Lemma exact_interval_step (s : TH.limiter) (o : op) :
  step (λ x, x) (of_exact s) o =
  Done (fst (TH.step s o), of_exact (snd (TH.step s o))).
Proof.
  destruct o as [u t|u t|u t]; simpl; [done| |done].
  unfold record_message, TH.record_message. simpl.
  change (last_message_time (of_exact s) u) with (TH.last_message_time s u).
  by destruct (Qle_bool _ _).
Qed.

Lemma exact_interval_run (s : TH.limiter) (ops : list op) :
  run (λ x, x) (of_exact s) ops =
  Done (fst (TH.run s ops), of_exact (snd (TH.run s ops))).
Proof.
  revert s. induction ops as [|o ops IH]; intros s; simpl; [done|].
  rewrite exact_interval_step.
  destruct (TH.step s o) as [out s1]. simpl. rewrite IH.
  by destruct (TH.run s1 ops).
Qed.

End ThrottlingBinary64Facts.

(** ** Repeated checks, with floating-point arithmetic *)

Module IdempotenceBinary64Facts.
Import Binary64.
Import SlidingWindowFacts SlidingWindowBinary64Facts.

Lemma window_can_send_repeatedly rnd k s u t w :
  to_float rnd (SW64.window_size s) = Done w →
  SW64.can_send_repeatedly rnd (S k) s u t =
  Done (repeat (SW64.has_room (SW64.cleaned (rnd (t - w)) s u) u) (S k),
        SW64.cleaned (rnd (t - w)) s u).
Proof.
  intros Hw. revert s Hw. induction k as [|k IH]; intros s Hw.
  - simpl. by rewrite (can_send_message_fits rnd s u t w Hw).
  - change (SW64.can_send_repeatedly rnd (S (S k)) s u t) with
      (match SW64.can_send_message rnd s u t with
       | Throw e => Throw e
       | Done (b, s1) =>
           match SW64.can_send_repeatedly rnd (S k) s1 u t with
           | Throw e => Throw e
           | Done (bs, s2) => Done (b :: bs, s2)
           end
       end).
    rewrite (can_send_message_fits rnd s u t w Hw).
    rewrite IH by (by rewrite cleaned_window_size).
    rewrite cleaned_later by lra. done.
Qed.

(** C6 (amended). A [can_send_message] call of the sliding-window limiter,
    in a state whose [window_size] converts to a float [w], removes from
    the deque of [u] exactly its leading timestamps at or below the float
    [fl (now - w)] ([old]; [rest] starts above it), deletes the entry of
    [u] when nothing is left, and changes nothing else: not the other
    entries, not the configuration, not the blocked counter. Every one of
    [k + 1] calls in a row at the same time answers what the first one
    answers, and they leave the state the first one leaves. A
    [can_send_message] call of the interval limiter leaves the state as it
    is, and [k] calls in a row at the same time answer the same. *)
Theorem C6_can_send_only_cleans_up
  (rnd : Q → Q) (s : SW64.limiter) (u : string) (now w : Q) (k : nat)
  (th : TH64.limiter) (v : string) (t : Q) :
  to_float rnd (SW64.window_size s) = Done w →
  (∃ admitted s' old rest,
     SW64.can_send_message rnd s u now = Done (admitted, s') ∧
     SW64.deque_of s u = old ++ rest ∧
     Forall (λ ts, ts <= rnd (now - w)) old ∧
     match rest with [] => True | ts :: _ => rnd (now - w) < ts end ∧
     SW64.user_requests s' !! u =
       match rest with [] => None | _ :: _ => Some rest end ∧
     (∀ x, x ≠ u →
        SW64.user_requests s' !! x = SW64.user_requests s !! x) ∧
     SW64.window_size s' = SW64.window_size s ∧
     SW64.max_requests s' = SW64.max_requests s ∧
     SW64.blocked_requests s' = SW64.blocked_requests s ∧
     admitted =
       match rest with
       | [] => true
       | _ :: _ => (Z.of_nat (length rest) <? SW64.max_requests s)%Z
       end ∧
     SW64.can_send_repeatedly rnd (S k) s u now
       = Done (repeat admitted (S k), s')) ∧
  (∃ allowed,
     TH64.can_send_message rnd th v t = Done (allowed, th) ∧
     allowed = Qle_bool (value (TH64.min_interval th))
                 (rnd (t - TH64.last_message_time th v)) ∧
     TH64.can_send_repeatedly rnd k th v t = Done (repeat allowed k, th)).
Proof.
  intros Hw. split.
  - destruct (cleaned_result (rnd (now - w)) s u)
      as (old & rest & Hrest & Hsplit & Hold & Hhead & Hlookup & Hroom).
    rewrite (can_send_message_fits rnd s u now w Hw).
    rewrite (window_can_send_repeatedly rnd k s u now w Hw).
    eexists _, (SW64.cleaned (rnd (now - w)) s u), old, rest.
    split; [reflexivity|]. split; [done|]. split; [done|]. split; [done|].
    split; [done|].
    split; [intros x Hx; by apply cleaned_lookup_other|].
    split; [apply cleaned_window_size|].
    split; [apply cleaned_max_requests|].
    split; [apply cleaned_blocked_requests|].
    split; [done|]. reflexivity.
  - eexists. split; [reflexivity|]. split; [reflexivity|].
    apply ThrottlingBinary64Facts.interval_can_send_repeatedly.
Qed.

Lemma C6_witness :
  (∃ admitted s' old rest,
     SW64.can_send_message round64
       (SW64.Limiter (PyInt 10) 2 {[ "1" := [0; 5; 7]; "2" := [3%Q] ]} 4)
       "1" 12 = Done (admitted, s') ∧
     SW64.deque_of
       (SW64.Limiter (PyInt 10) 2 {[ "1" := [0; 5; 7]; "2" := [3%Q] ]} 4)
       "1" = old ++ rest ∧
     Forall (λ ts, ts <= round64 (12 - 10)) old ∧
     match rest with [] => True | ts :: _ => round64 (12 - 10) < ts end ∧
     SW64.user_requests s' !! "1" =
       match rest with [] => None | _ :: _ => Some rest end ∧
     (∀ x, x ≠ "1" →
        SW64.user_requests s' !! x =
        SW64.user_requests
          (SW64.Limiter (PyInt 10) 2 {[ "1" := [0; 5; 7]; "2" := [3%Q] ]} 4)
          !! x) ∧
     SW64.window_size s' = PyInt 10 ∧
     SW64.max_requests s' = 2%Z ∧
     SW64.blocked_requests s' = 4%Z ∧
     admitted =
       match rest with
       | [] => true
       | _ :: _ => (Z.of_nat (length rest) <? 2)%Z
       end ∧
     SW64.can_send_repeatedly round64 3
       (SW64.Limiter (PyInt 10) 2 {[ "1" := [0; 5; 7]; "2" := [3%Q] ]} 4)
       "1" 12 = Done (repeat admitted 3, s')) ∧
  (∃ allowed,
     TH64.can_send_message round64
       (TH64.Limiter (PyFloat 10) {[ "A" := 100 ]}) "A" 105
       = Done (allowed, TH64.Limiter (PyFloat 10) {[ "A" := 100 ]}) ∧
     allowed = Qle_bool 10 (round64 (105 - 100)) ∧
     TH64.can_send_repeatedly round64 2
       (TH64.Limiter (PyFloat 10) {[ "A" := 100 ]}) "A" 105
       = Done (repeat allowed 2,
               TH64.Limiter (PyFloat 10) {[ "A" := 100 ]})).
Proof.
  exact (C6_can_send_only_cleans_up round64
           (SW64.Limiter (PyInt 10) 2 {[ "1" := [0; 5; 7]; "2" := [3%Q] ]} 4)
           "1" 12 10 2
           (TH64.Limiter (PyFloat 10) {[ "A" := 100 ]}) "A" 105 eq_refl).
Defined.

End IdempotenceBinary64Facts.

(** ** Construction and errors, with floating-point arithmetic *)

Module ConstructionBinary64Facts.
Import Binary64.

(** C2 (amended). Neither constructor checks a range: for every
    [window_size], [max_requests] and [min_interval], positive or not,
    construction returns a limiter that stores the values as given, with
    an empty mapping and a blocked counter of 0. On the limiter so
    constructed every sequence of calls, at any times, returns without an
    error, as long as [window_size] (for the interval limiter,
    [min_interval]) converts to a float. *)
Theorem C2_construction_never_fails :
  (∀ W n, SW64.init W n = Done (SW64.Limiter W n ∅ 0)) ∧
  (∀ mi, TH64.init mi = Done (TH64.Limiter mi ∅)) ∧
  (∀ rnd W n w ops,
     to_float rnd W = Done w →
     ∃ log s, SW64.script rnd W n ops = Done (log, s)) ∧
  (∀ rnd mi m ops,
     to_float rnd mi = Done m →
     ∃ s0 log s,
       TH64.init mi = Done s0 ∧ TH64.run rnd s0 ops = Done (log, s)).
Proof.
  split; [done|]. split; [done|]. split.
  - intros rnd W n w ops Hw. unfold SW64.script, SW64.init.
    by apply (SlidingWindowBinary64Facts.rounded_run_total rnd _ ops w).
  - intros rnd mi m ops Hm. exists (TH64.Limiter mi ∅).
    destruct (ThrottlingBinary64Facts.interval_run_fits rnd
                (TH64.Limiter mi ∅) ops m Hm) as (log & s & ->).
    by eexists _, _.
Qed.

Lemma C2_witness :
  (∃ log s,
     SW64.script round64 (PyInt (-5)) 0
       [SW.Record "1" 3; SW.TimeUntil "1" 1; SW.CanSend "2" 0;
        SW.Record "1" 1]
     = Done (log, s)) ∧
  (∃ s0 log s,
     TH64.init (PyInt 0) = Done s0 ∧
     TH64.run round64 s0
       [TH.Record "A" 3; TH.TimeUntil "A" 1; TH.CanSend "B" 0]
     = Done (log, s)).
Proof.
  split.
  - apply (proj1 (proj2 (proj2 C2_construction_never_fails))
             round64 (PyInt (-5)) 0%Z (round64 (inject_Z (-5)))).
    vm_compute. reflexivity.
  - apply (proj2 (proj2 (proj2 C2_construction_never_fails))
             round64 (PyInt 0) (round64 (inject_Z 0))).
    vm_compute. reflexivity.
Defined.

End ConstructionBinary64Facts.

(** ** Further facts about the sliding-window limiter with floating-point
    arithmetic *)

Module SlidingWindowBinary64Extras.
Import Binary64 SlidingWindowBinary64.
Import SlidingWindowRateLimiter(drop_expired).
Import SlidingWindowFacts SlidingWindowBinary64Facts.

(** X3. In a state whose [window_size] converts to a float,
    [time_until_next_allowed] returns 0 whenever [record_message] at the
    same time would be accepted; it is never negative, and a positive
    value means that [record_message] would be rejected. *)
Theorem X3_admitted_means_zero_wait
  (rnd : Q → Q) (s : limiter) (u : string) (now w : Q) :
  to_float rnd (window_size s) = Done w →
  ∃ d ok s1 s2,
    time_until_next_allowed rnd s u now = Done (d, s1) ∧
    record_message rnd s u now = Done (ok, s2) ∧
    0 <= d ∧
    (ok = true → d = 0) ∧
    (0 < d → ok = false).
Proof.
  intros Hw.
  rewrite (time_until_next_allowed_fits rnd s u now w Hw).
  rewrite (record_message_fits rnd s u now w Hw).
  destruct (has_room _ u); eexists _, _, _, _;
    (split; [reflexivity|]); (split; [reflexivity|]).
  - split; [lra|]. split; [done|]. intros. lra.
  - split; [|split; [done|done]].
    destruct (drop_expired _ _); [lra|]. apply Q.le_max_l.
Qed.

Lemma X3_witness :
  ∃ d ok s1 s2,
    time_until_next_allowed round64
      (Limiter (PyInt 10) 1 {[ "1" := [3%Q] ]} 0) "1" 8 = Done (d, s1) ∧
    record_message round64
      (Limiter (PyInt 10) 1 {[ "1" := [3%Q] ]} 0) "1" 8 = Done (ok, s2) ∧
    0 <= d ∧
    (ok = true → d = 0) ∧
    (0 < d → ok = false).
Proof.
  exact (X3_admitted_means_zero_wait round64
           (Limiter (PyInt 10) 1 {[ "1" := [3%Q] ]} 0) "1" 8 10 eq_refl).
Defined.

(** X7. With [max_requests] at most 1, also 0 or negative, a user without
    an entry is admitted: [record_message] returns [True] and stores the
    time [t] as the user's only timestamp. The next [record_message] of
    the user, at [t'], returns [True] exactly when [t] is at or below the
    float [fl (t' - window_size)], and then [t'] is the only timestamp;
    otherwise it returns [False] and counts one more blocked request. *)
Theorem X7_single_slot_follows_the_float_bound
  (rnd : Q → Q) (s : limiter) (u : string) (t t' w : Q) :
  to_float rnd (window_size s) = Done w →
  (max_requests s <= 1)%Z →
  user_requests s !! u = None →
  ∃ s1 ok s2,
    record_message rnd s u t = Done (true, s1) ∧
    user_requests s1 !! u = Some [t] ∧
    record_message rnd s1 u t' = Done (ok, s2) ∧
    ok = Qle_bool t (rnd (t' - w)) ∧
    user_requests s2 !! u = Some [if ok then t' else t] ∧
    blocked_requests s2 =
      (if ok then blocked_requests s else blocked_requests s + 1)%Z.
Proof.
  intros Hw Hn Hnone.
  assert (deque_of s u = []) as Hdq by (unfold deque_of; by rewrite Hnone).
  pose (s1 := with_requests (cleaned (rnd (t - w)) s u)
                (<[u := [t]]> (user_requests (cleaned (rnd (t - w)) s u)))).
  assert (record_message rnd s u t = Done (true, s1)) as Hfirst.
  { rewrite (record_message_fits rnd s u t w Hw).
    by rewrite cleaned_has_room, Hdq. }
  assert (user_requests s1 !! u = Some [t]) as Hs1
    by apply lookup_insert_eq.
  assert (deque_of s1 u = [t]) as Hdq1 by (unfold deque_of; by rewrite Hs1).
  assert (window_size s1 = window_size s) as Hw1
    by apply cleaned_window_size.
  assert (max_requests s1 = max_requests s) as Hn1
    by apply cleaned_max_requests.
  assert (blocked_requests s1 = blocked_requests s) as Hb1
    by apply cleaned_blocked_requests.
  exists s1. rewrite Hfirst.
  rewrite (record_message_fits rnd s1 u t' w) by (by rewrite Hw1).
  rewrite cleaned_has_room, Hdq1, Hn1. cbn [drop_expired].
  destruct (Qle_bool t (rnd (t' - w))) eqn:E; cbn [app].
  - eexists _, _. split; [reflexivity|]. split; [done|].
    split; [reflexivity|]. split; [done|].
    split; [apply lookup_insert_eq|].
    cbn [with_requests blocked_requests].
    by rewrite cleaned_blocked_requests.
  - assert ((Z.of_nat (length [t]) <? max_requests s)%Z = false) as ->
      by (apply Z.ltb_ge; simpl; lia).
    eexists _, _. split; [reflexivity|]. split; [done|].
    split; [reflexivity|]. split; [done|].
    cbn [user_requests blocked_requests].
    split; [|by rewrite Hb1].
    rewrite cleaned_lookup_same, Hdq1. cbn [drop_expired]. by rewrite E.
Qed.

Lemma X7_witness :
  ∃ s1 ok s2,
    record_message round64 (Limiter (PyFloat Literals.tenth) 0 ∅ 0) "1"
      Literals.epoch_first = Done (true, s1) ∧
    user_requests s1 !! "1" = Some [Literals.epoch_first] ∧
    record_message round64 s1 "1" Literals.epoch_second = Done (ok, s2) ∧
    ok = Qle_bool Literals.epoch_first
           (round64 (Literals.epoch_second - Literals.tenth)) ∧
    user_requests s2 !! "1" =
      Some [if ok then Literals.epoch_second else Literals.epoch_first] ∧
    blocked_requests s2 = (if ok then 0 else 0 + 1)%Z.
Proof.
  refine (X7_single_slot_follows_the_float_bound round64
            (Limiter (PyFloat Literals.tenth) 0 ∅ 0) "1"
            Literals.epoch_first Literals.epoch_second Literals.tenth
            _ _ _).
  - reflexivity.
  - simpl. lia.
  - reflexivity.
Defined.

(** X9. After any script at non-decreasing times on a fresh limiter whose
    [window_size] converts to a float [w], the deque of a user is the end
    of the list of the times of that user's accepted [record_message]
    calls, and every accepted time that is no longer in the deque is at or
    below the float [fl (T - w)], [T] the time of the last call. *)
Theorem X9_deque_is_the_end_of_the_accepted_times
  (rnd : Q → Q) (W : number) (w : Q) (n : Z) (ops : list SW.op)
  (u : string) :
  monotone rnd →
  to_float rnd W = Done w →
  SW.nondecreasing_times ops = true →
  ∃ log s old,
    script rnd W n ops = Done (log, s) ∧
    SW.accepted u log = old ++ deque_of s u ∧
    Forall (λ ts, ts <= rnd (SW.final_time 0 ops - w)) old.
Proof.
  intros Hrnd Hw Hmono. unfold script, init.
  destruct (rounded_run_total rnd (Limiter W n ∅ 0) ops w Hw)
    as (log & s & Hrun).
  exists log, s. destruct ops as [|o ops].
  - injection Hrun as <- <-. exists []. split; [done|].
    split; [|constructor]. unfold deque_of. simpl. by rewrite lookup_empty.
  - assert (SW.clock_monotone (SW.op_time o) (o :: ops) = true) as Hmono'.
    { simpl. apply andb_true_intro. split; [|done].
      apply Qle_bool_iff. lra. }
    pose proof (rounded_run_ledger rnd Hrnd u (SW.op_time o) w
                  (Limiter W n ∅ 0) [] (o :: ops) log s Hw
                  (rounded_init_ledger rnd u w (rnd (SW.op_time o - w)) W n)
                  Hmono' Hrun) as [(old & HA & Hold) _].
    exists old. by split.
Qed.

Lemma X9_witness :
  ∃ log s old,
    script round64 (PyFloat Literals.tenth) 1
      [SW.Record "1" Literals.epoch_first;
       SW.CanSend "1" Literals.epoch_second] = Done (log, s) ∧
    SW.accepted "1" log = old ++ deque_of s "1" ∧
    Forall (λ ts, ts <= round64
                          (SW.final_time 0
                             [SW.Record "1" Literals.epoch_first;
                              SW.CanSend "1" Literals.epoch_second]
                           - Literals.tenth)) old.
Proof.
  refine (X9_deque_is_the_end_of_the_accepted_times round64
            (PyFloat Literals.tenth) Literals.tenth 1
            [SW.Record "1" Literals.epoch_first;
             SW.CanSend "1" Literals.epoch_second] "1"
            Binary64Facts.round64_monotone _ _).
  - reflexivity.
  - vm_compute. reflexivity.
Defined.

End SlidingWindowBinary64Extras.

(** ** Further facts about the interval limiter with floating-point
    arithmetic *)

Module ThrottlingBinary64Extras.
Import Binary64 ThrottlingBinary64.

(** X12. With a float [min_interval] and a rounding that keeps the order
    and does not round 0 up, [time_until_next_allowed] is never negative
    and is 0 whenever [record_message] at the same time returns [True]. *)
Theorem X12_wait_is_zero_when_admitted
  (rnd : Q → Q) (s : limiter) (u : string) (now m : Q) :
  monotone rnd →
  rnd 0 <= 0 →
  min_interval s = PyFloat m →
  ∃ d ok s',
    time_until_next_allowed rnd s u now = Done (d, s) ∧
    record_message rnd s u now = Done (ok, s') ∧
    0 <= d ∧
    (ok = true → d == 0).
Proof.
  intros Hrnd H0 Hm. unfold time_until_next_allowed, record_message.
  rewrite Hm. cbn [to_float value].
  set (r := rnd (now - last_message_time s u)).
  case_Qle m r; eexists _, _, _;
    (split; [reflexivity|]); (split; [reflexivity|]);
    (split; [apply Q.le_max_l|]); [|done].
  intros _. apply Q.max_l.
  assert (rnd (m - r) <= rnd 0) by (apply Hrnd; lra). lra.
Qed.

Lemma X12_witness :
  ∃ d ok s',
    time_until_next_allowed round64
      (Limiter (PyFloat 10) {[ "A" := 100 ]}) "A" 112
      = Done (d, Limiter (PyFloat 10) {[ "A" := 100 ]}) ∧
    record_message round64
      (Limiter (PyFloat 10) {[ "A" := 100 ]}) "A" 112 = Done (ok, s') ∧
    0 <= d ∧
    (ok = true → d == 0).
Proof.
  refine (X12_wait_is_zero_when_admitted round64
            (Limiter (PyFloat 10) {[ "A" := 100 ]}) "A" 112 10
            Binary64Facts.round64_monotone _ _).
  - vm_compute. discriminate.
  - reflexivity.
Defined.

End ThrottlingBinary64Extras.
